(** * Product-mapping pipeline of [dev_anon.py]

    A shallow embedding of the script's join-and-pick-most-frequent
    computation ([mock_mapping_dataframe], the pandas twin of the SQL in
    [run_mapping_query]) and of its control flow ([get_credentials],
    [fetch_company_codes], [main]), with the properties the specification
    states about them.

    Conventions.
    - A Python [str] is a [string] holding its UTF-8 bytes.  Python orders
      [str] by code point, and byte-wise order of UTF-8 agrees with code
      point order, so [String_as_OT.compare] is the order that [sorted],
      [sort_values] and [groupby(sort=True)] use.
    - A column cell that may be [None]/[NaN] is an [option].
    - A [DataFrame] is the list of its rows, in row order. *)

From Stdlib Require Import List Bool Arith ZArith Lia String Ascii DecimalString.
From Stdlib Require Import Permutation Sorted OrdersEx RelationClasses DecimalNat.
Import ListNotations.
Open Scope string_scope.

(* ================================================================== *)
(** ** Total orders given by a three-way comparison *)

Class Ord (A : Type) := cmp : A -> A -> comparison.

Class OrdLaws (A : Type) `{Ord A} := {
  cmp_eq : forall a b : A, cmp a b = Eq <-> a = b;
  cmp_sym : forall a b : A, cmp b a = CompOpp (cmp a b);
  cmp_trans : forall a b c : A, cmp a b = Lt -> cmp b c = Lt -> cmp a c = Lt
}.

(** [a <= b] and [a < b] as the code's comparisons compute them. *)
Definition leb {A} `{Ord A} (a b : A) : bool :=
  match cmp a b with Gt => false | _ => true end.

Definition ltb {A} `{Ord A} (a b : A) : bool :=
  match cmp a b with Lt => true | _ => false end.

Definition eqb {A} `{Ord A} (a b : A) : bool :=
  match cmp a b with Eq => true | _ => false end.

#[global] Instance string_Ord : Ord string := String_as_OT.compare.

(** Tuples compare lexicographically, as Python tuples and multi-column
    sort keys do. *)
#[global] Instance prod_Ord {A B} `{Ord A} `{Ord B} : Ord (A * B) :=
  fun x y => match cmp (fst x) (fst y) with
             | Eq => cmp (snd x) (snd y)
             | c => c
             end.

(* ================================================================== *)
(** ** Stable sort

    [sorted], and [sort_values] on several columns (which goes through a
    stable lexsort), keep rows with equal keys in their original relative
    order.  Insertion sort, inserting from the right end, is the
    reference stable sort. *)

Section Sort.
Context {A : Type}.
Variable le : A -> A -> bool.

Fixpoint insert (x : A) (s : list A) : list A :=
  match s with
  | [] => [x]
  | y :: s' => if le x y then x :: s else y :: insert x s'
  end.

Fixpoint isort (l : list A) : list A :=
  match l with
  | [] => []
  | x :: l' => insert x (isort l')
  end.

End Sort.

(** [set(xs)]: the distinct elements.  Every use below either sorts the
    result or takes the iteration order from the environment. *)
Definition pyset (xs : list string) : list string := nodup string_dec xs.

(** [sorted(xs)] on strings. *)
Definition sorted (xs : list string) : list string := isort leb xs.

(* ================================================================== *)
(** ** Frames

    One record per DataFrame shape, with the column names of the script.
    Key columns of the two inputs may hold nulls; after [groupby] (which
    drops rows with a null key) they no longer do. *)

Module Plato.
Record row := mk {
  company_code : option string;
  order_number : option string;
  order_line : option Z;
  sales_item_id : option string
}.
End Plato.

Module Mag.
Record row := mk {
  company_code : option string;
  order_number : option string;
  order_line : option Z;
  mg_product_name : option string
}.
End Mag.

Module Joined.
Record row := mk {
  company_code : option string;
  order_number : option string;
  order_line : option Z;
  sales_item_id : option string;
  mg_product_name : option string
}.
End Joined.

Module Counts.
Record row := mk {
  company_code : string;
  sales_item_id : string;
  mg_product_name : string;
  cnt : nat
}.
End Counts.

Module Picked.
Record row := mk {
  company_code : string;
  sales_item_id : string;
  mg_product_name : string
}.
End Picked.

(** The composite join key [(company_code, order_number, order_line)]. *)
Definition join_key : Type := option string * option string * option Z.

Definition plato_key (p : Plato.row) : join_key :=
  (Plato.company_code p, Plato.order_number p, Plato.order_line p).

Definition mag_key (m : Mag.row) : join_key :=
  (Mag.company_code m, Mag.order_number m, Mag.order_line m).

Definition option_eqb {A} (eqA : A -> A -> bool) (x y : option A) : bool :=
  match x, y with
  | Some a, Some b => eqA a b
  | None, None => true
  | _, _ => false
  end.

(** Key equality as [merge] decides it: pandas factorises each key column
    and gives all nulls of a column one shared code, so a null matches a
    null (unlike SQL's [USING]). *)
Definition join_key_eqb (k1 k2 : join_key) : bool :=
  let '(c1, o1, l1) := k1 in
  let '(c2, o2, l2) := k2 in
  option_eqb String.eqb c1 c2 && option_eqb String.eqb o1 o2 && option_eqb Z.eqb l1 l2.

Definition joined_row (p : Plato.row) (prod : option string) : Joined.row :=
  Joined.mk (Plato.company_code p) (Plato.order_number p) (Plato.order_line p)
            (Plato.sales_item_id p) prod.

(** [left.merge(right, on=[company_code, order_number, order_line], how="left")]:
    left rows in order, each with its matches in right order, or once with
    a null product when nothing matches. *)
Definition merge_left (left : list Plato.row) (right : list Mag.row) : list Joined.row :=
  flat_map (fun p =>
    match filter (fun m => join_key_eqb (plato_key p) (mag_key m)) right with
    | [] => [joined_row p None]
    | ms => map (fun m => joined_row p (Mag.mg_product_name m)) ms
    end) left.

Definition notna {A} (x : option A) : bool :=
  match x with Some _ => true | None => false end.

(** [.dropna(subset=["mg_product_name"])] *)
Definition dropna_mg_product_name (df : list Joined.row) : list Joined.row :=
  filter (fun r => notna (Joined.mg_product_name r)) df.

Definition pair_key : Type := string * string.
Definition triple_key : Type := string * string * string.

Definition pair_key_dec (x y : pair_key) : {x = y} + {x <> y}.
Proof. decide equality; apply string_dec. Defined.

Definition triple_key_dec (x y : triple_key) : {x = y} + {x <> y}.
Proof. decide equality; [apply string_dec | apply pair_key_dec]. Defined.

(** The group key of a joined row under
    [groupby(["company_code","sales_item_id","mg_product_name"])]; the
    default [dropna=True] leaves a row with a null in a key column out of
    every group. *)
Definition group_key (r : Joined.row) : option triple_key :=
  match Joined.company_code r, Joined.sales_item_id r, Joined.mg_product_name r with
  | Some c, Some i, Some p => Some (c, i, p)
  | _, _, _ => None
  end.

(** The grouped occurrences of a joined frame, one per row that belongs to
    a group, in row order. *)
Definition occurrences (df : list Joined.row) : list triple_key :=
  flat_map (fun r => match group_key r with Some k => [k] | None => [] end) df.

(** [groupby([...], as_index=False).size().rename(columns={"size":"cnt"})]:
    one row per distinct key with its number of rows; the default
    [sort=True] orders the groups by key, ascending. *)
Definition groupby_size (df : list Joined.row) : list Counts.row :=
  let keys := occurrences df in
  map (fun k => Counts.mk (fst (fst k)) (snd (fst k)) (snd k)
                          (count_occ triple_key_dec keys k))
      (isort leb (nodup triple_key_dec keys)).

Definition counts_triple (r : Counts.row) : triple_key :=
  (Counts.company_code r, Counts.sales_item_id r, Counts.mg_product_name r).

Definition counts_pair (r : Counts.row) : pair_key :=
  (Counts.company_code r, Counts.sales_item_id r).

Definition picked_pair (r : Picked.row) : pair_key :=
  (Picked.company_code r, Picked.sales_item_id r).

(** Row order of
    [sort_values(["company_code","sales_item_id","cnt"], ascending=[True,True,False])]. *)
Definition by_pair_cnt_desc (r1 r2 : Counts.row) : bool :=
  match cmp (counts_pair r1) (counts_pair r2) with
  | Lt => true
  | Gt => false
  | Eq => Nat.leb (Counts.cnt r2) (Counts.cnt r1)
  end.

(** Row order of [sort_values(["company_code","sales_item_id"])]. *)
Definition by_pair (r1 r2 : Picked.row) : bool :=
  leb (picked_pair r1) (picked_pair r2).

Definition sort_values {A} (le : A -> A -> bool) (df : list A) : list A :=
  isort le df.

(** [groupby(["company_code","sales_item_id"], as_index=False).first()]
    followed by the projection on the three output columns: groups in
    ascending key order, each with the product of its first row (no
    product is null at this point). *)
Definition groupby_first (df : list Counts.row) : list Picked.row :=
  flat_map (fun k =>
    match find (fun r => eqb (counts_pair r) k) df with
    | Some r => [Picked.mk (fst k) (snd k) (Counts.mg_product_name r)]
    | None => []
    end) (isort leb (nodup pair_key_dec (map counts_pair df))).

(** The frame [joined] of the script. *)
Definition joined (plato : list Plato.row) (mag : list Mag.row) : list Joined.row :=
  dropna_mg_product_name (merge_left plato mag).

(** The frame [counts] of the script. *)
Definition counts (plato : list Plato.row) (mag : list Mag.row) : list Counts.row :=
  groupby_size (joined plato mag).

(** The frame [picked] of the script. *)
Definition picked (plato : list Plato.row) (mag : list Mag.row) : list Picked.row :=
  groupby_first (sort_values by_pair_cnt_desc (counts plato mag)).

(** The join-and-pick step of [mock_mapping_dataframe] on two given
    frames; [reset_index(drop=True)] renumbers rows and leaves the list as
    it is. *)
Definition resolve (plato : list Plato.row) (mag : list Mag.row) : list Picked.row :=
  sort_values by_pair (picked plato mag).

(** How often [(company_code, sales_item_id, mg_product_name)] occurs among
    the surviving joined rows. *)
Definition occurrence_count (plato : list Plato.row) (mag : list Mag.row)
    (c i p : string) : nat :=
  count_occ triple_key_dec (occurrences (joined plato mag)) (c, i, p).

(* ================================================================== *)
(** ** Synthetic data of [mock_mapping_dataframe] and the script's
       control flow

    The script talks to the module [random], to the optional packages
    [pandas_gbq] and [pydata_google_auth], to the file system and to the
    clock.  These collaborators are the section's variables; the script's
    own code is defined over them. *)

Definition companies : list string := ["C01"; "C02"; "C03"].

Definition items : list string :=
  ["0010-R01"; "0015-R01"; "0020-R01"; "0030-R01"; "0032-R01";
   "0040-R01"; "0042-R01"; "0088-R01"; "1870140"; "1870156";
   "3410-1036"; "3440-1034"; "3432-1015"; "390010060"].

Definition product_of_item : list (string * string) :=
  [("0010-R01", "010 - Venetian Blinds");
   ("0015-R01", "015 - Wood Blinds");
   ("0020-R01", "020 - Vertical Blinds");
   ("0030-R01", "030 - Pleated Blinds");
   ("0032-R01", "032 - Duette Blinds");
   ("0040-R01", "040 - Roller Blinds");
   ("0042-R01", "042 - Roman Shades");
   ("0088-R01", "088 - Insect Screens");
   ("1870140", "040 - Roller Blinds");
   ("1870156", "098 - Undefined/Various");
   ("3410-1036", "010 - Venetian Blinds");
   ("3440-1034", "040 - Roller Blinds");
   ("3432-1015", "032 - Duette Blinds");
   ("390010060", "094 - Order Surcharges")].

(** [d[k]] on a dict with string keys; every key looked up below is one of
    [items], all of which are keys of [product_of_item]. *)
Fixpoint dict_get (d : list (string * string)) (k : string) : string :=
  match d with
  | [] => EmptyString
  | (k', v) :: d' => if String.eqb k' k then v else dict_get d' k
  end.

(** [f"{i:06d}"]: decimal, padded with zeros on the left to six characters. *)
Fixpoint zeros (n : nat) : string :=
  match n with
  | 0 => EmptyString
  | S n' => String "0" (zeros n')
  end.

Definition fmt_06d (i : nat) : string :=
  let s := NilZero.string_of_uint (Nat.to_uint i) in
  zeros (6 - String.length s) ++ s.

(** The tuples appended to [rows] and to [mag_rows]. *)
Definition plato_tuple : Type := string * string * Z * string.
Definition mag_tuple : Type := string * string * Z * string.

(** [pd.DataFrame(rows, columns=[...])] *)
Definition plato_frame (rows : list plato_tuple) : list Plato.row :=
  map (fun '(cc, order, line, it) => Plato.mk (Some cc) (Some order) (Some line) (Some it)) rows.

Definition mag_frame (rows : list mag_tuple) : list Mag.row :=
  map (fun '(cc, order, line, prod) => Mag.mk (Some cc) (Some order) (Some line) (Some prod)) rows.

(** The fields of a tuple of [rows] or of [mag_rows]; the last one is the
    item of an order line and the product of a labelled record. *)
Definition tuple_company (r : string * string * Z * string) : string :=
  let '(cc, _, _, _) := r in cc.

Definition tuple_order (r : string * string * Z * string) : string :=
  let '(_, order, _, _) := r in order.

Definition tuple_line (r : string * string * Z * string) : Z :=
  let '(_, _, line, _) := r in line.

Definition tuple_last (r : string * string * Z * string) : string :=
  let '(_, _, _, x) := r in x.

(** The join key of a tuple once it is a frame row. *)
Definition tuple_key (r : string * string * Z * string) : join_key :=
  (Some (tuple_company r), Some (tuple_order r), Some (tuple_line r)).

(** A line of the synthetic data, as a tuple of [rows] with the tuple of
    [mag_rows] built from it, is flipped when its product is not the
    base product of its item. *)
Definition flipped (rm : (string * string * Z * string) * (string * string * Z * string))
    : bool :=
  negb (String.eqb (tuple_last (snd rm))
                   (dict_get product_of_item (tuple_last (fst rm)))).

(** The lines of company [c] and item [i]. *)
Definition pair_lines (c i : string)
    (rows mag_rows : list (string * string * Z * string))
    : list ((string * string * Z * string) * (string * string * Z * string)) :=
  filter (fun rm => String.eqb (tuple_company (fst rm)) c
                    && String.eqb (tuple_last (fst rm)) i)
         (combine rows mag_rows).

(** [product_of_item.values()] *)
Definition products : list string := map snd product_of_item.

(** Python exceptions that can leave the script's functions. *)
Inductive exn : Type :=
| RuntimeError (msg : string)
| TypeError (msg : string)
| CollaboratorError (what : string).

Inductive result (A : Type) : Type :=
| Ok (a : A)
| Raise (e : exn).

Arguments Ok {A} a.
Arguments Raise {A} e.

Definition scopes : list string :=
  ["https://www.googleapis.com/auth/bigquery";
   "https://www.googleapis.com/auth/cloud-platform"].

(** The part of each query text that the script computes. *)
Definition supported_union_sql (supported : list string) : string :=
  String.concat " UNION ALL " (map (fun n => "SELECT '" ++ n ++ "' AS name") supported).

Definition codes_array_sql (codes : list string) : string :=
  "ARRAY<STRING>[" ++ String.concat "," (map (fun c => "'" ++ c ++ "'") codes) ++ "]".

(** Whether the character [a] occurs in [s]. *)
Fixpoint has_char (a : ascii) (s : string) : bool :=
  match s with
  | EmptyString => false
  | String b s' => Ascii.eqb a b || has_char a s'
  end.

(** The single quote that delimits a string literal in the query text. *)
Definition quote : ascii := "'"%char.

Inductive query : Type :=
| names_sql (supported_union : string)
| mapping_sql (codes_array : string).

Section Script.

(** State of the generator behind the module [random]. *)
Variable rng : Type.
(** [random.seed(a)]: the state that depends on [a] alone. *)
Variable seed_state : Z -> rng.
(** [random._randbelow(n)] *)
Variable randbelow : nat -> rng -> nat * rng.
(** [random.random() < 0.08] *)
Variable random_lt_008 : rng -> bool * rng.
(** Iteration order of a [set] of strings in the running interpreter. *)
Variable set_iter : list string -> list string.

(** Credentials object, and the DataFrame that [read_gbq] returns. *)
Variable Credentials : Type.
Variable QueryFrame : Type.
(** [df["CompanyCode"].astype(str)] as a list. *)
Variable CompanyCode_astype_str : QueryFrame -> list string.
(** [df.shape] *)
Variable query_shape : QueryFrame -> nat * nat.

(** [random.choice(seq)] is [seq[_randbelow(len(seq))]]. *)
Definition choice (l : list string) (g : rng) : string * rng :=
  let (i, g') := randbelow (List.length l) g in (nth i l EmptyString, g').

(** [random.randint(a, b)] is [a + _randbelow(b - a + 1)]. *)
Definition randint (a b : Z) (g : rng) : Z * rng :=
  let (i, g') := randbelow (Z.to_nat (b - a + 1)) g in ((a + Z.of_nat i)%Z, g').

(** The loop [for i in range(3000)] that fills [rows]. *)
Fixpoint build_rows (range : list nat) (g : rng) : list plato_tuple * rng :=
  match range with
  | [] => ([], g)
  | i :: range' =>
      let (cc, g1) := choice companies g in
      let (it, g2) := choice items g1 in
      let order := "25-" ++ fmt_06d i in
      let (line, g3) := randint 1 4 g2 in
      let (rest, g4) := build_rows range' g3 in
      ((cc, order, line, it) :: rest, g4)
  end.

(** The loop [for r in plato.itertuples(index=False)] that fills
    [mag_rows]; [itertuples] yields the tuples of [rows] back. *)
Fixpoint build_mag_rows (rows : list plato_tuple) (g : rng) : list mag_tuple * rng :=
  match rows with
  | [] => ([], g)
  | (cc, order, line, it) :: rows' =>
      let base := dict_get product_of_item it in
      let (flip, g1) := random_lt_008 g in
      let (prod, g2) :=
        if flip
        then choice (filter (fun p => negb (String.eqb p base))
                            (set_iter (map snd product_of_item))) g1
        else (base, g1) in
      let (rest, g3) := build_mag_rows rows' g2 in
      ((cc, order, line, prod) :: rest, g3)
  end.

(** [mock_mapping_dataframe(seed)], threading the generator state that the
    module [random] keeps between calls. *)
Definition mock_mapping_dataframe (seed : Z) (g : rng) : list Picked.row * rng :=
  let g0 := seed_state seed in
  let (rows, g1) := build_rows (seq 0 3000) g0 in
  let plato := plato_frame rows in
  let (mag_rows, g2) := build_mag_rows rows g1 in
  let mag := mag_frame mag_rows in
  (resolve plato mag, g2).

(** The frame that [main] exports. *)
Inductive frame : Type :=
| MockFrame (df : list Picked.row)
| GbqFrame (df : QueryFrame).

Definition shape (df : frame) : nat * nat :=
  match df with
  | MockFrame rows => (List.length rows, 3)
  | GbqFrame q => query_shape q
  end.

(** What the script does to the outside, in order. *)
Inductive event : Type :=
| EvMkdir (dir : string)
| EvGetUserCredentials (scopes : list string)
| EvLoadSupportedEntities
| EvReadGbq (sql : query)
| EvToExcel (path : string) (df : frame)
| EvPrintSaved (path : string)
| EvPrintShape (s : nat * nat).

(** The event that writes the output file. *)
Definition is_export (ev : event) : bool :=
  match ev with EvToExcel _ _ => true | _ => false end.

(** The event that sends the mapping query, the remote resolution. *)
Definition is_mapping_query (ev : event) : bool :=
  match ev with EvReadGbq (mapping_sql _) => true | _ => false end.

(** A computation: the events it performed and how it ended. *)
Definition M (A : Type) : Type := list event * result A.

Definition ret {A} (a : A) : M A := ([], Ok a).

Definition raise {A} (e : exn) : M A := ([], Raise e).

Definition call {A} (ev : event) (r : result A) : M A := ([ev], r).

Definition bind {A B} (m : M A) (k : A -> M B) : M B :=
  match m with
  | (t, Ok a) => let (t', r) := k a in ((t ++ t')%list, r)
  | (t, Raise e) => (t, Raise e)
  end.

Notation "x <- m ;; k" := (bind m (fun x => k))
  (at level 61, m at next level, right associativity).

(** [pandas_gbq.read_gbq] and [pydata_google_auth], when installed. *)
Definition read_gbq_fn : Type := query -> option Credentials -> result QueryFrame.
Definition auth_module : Type := list string -> result Credentials.

(** The process environment the script runs in. *)
Record Env := {
  getenv_USE_MOCK : option string;
  argv : list string;
  installed_read_gbq : option read_gbq_fn;
  installed_pydata_google_auth : option auth_module;
  entities_file : result (list string);
  mkdir_exports : result unit;
  cwd : string;
  now_stamp : string;
  write_excel : string -> frame -> result unit
}.

(** The [try: ... except Exception:] around the two optional imports:
    either both names are bound or both are [None]. *)
Definition optional_imports (e : Env) : option read_gbq_fn * option auth_module :=
  match installed_read_gbq e, installed_pydata_google_auth e with
  | Some r, Some a => (Some r, Some a)
  | _, _ => (None, None)
  end.

Definition read_gbq (e : Env) : option read_gbq_fn := fst (optional_imports e).

Definition pydata_google_auth (e : Env) : option auth_module := snd (optional_imports e).

(** [os.getenv("USE_MOCK", "0") == "1" or "--mock" in sys.argv] *)
Definition USE_MOCK (e : Env) : bool :=
  String.eqb (match getenv_USE_MOCK e with Some v => v | None => "0" end) "1"
  || existsb (String.eqb "--mock") (argv e).

Definition load_supported_entities (e : Env) : M (list string) :=
  call EvLoadSupportedEntities (entities_file e).

Definition get_credentials (e : Env) : M (option Credentials) :=
  if USE_MOCK e then ret None
  else
    match pydata_google_auth e with
    | None =>
        raise (RuntimeError
          "pydata_google_auth not installed; run: pip install pydata-google-auth")
    | Some get_user_credentials =>
        c <- call (EvGetUserCredentials scopes) (get_user_credentials scopes) ;;
        ret (Some c)
    end.

Definition fetch_company_codes (e : Env) (credentials : option Credentials)
    : M (list string) :=
  supported <- load_supported_entities e ;;
  let sql := names_sql (supported_union_sql supported) in
  match read_gbq e with
  | None => raise (RuntimeError "pandas-gbq not installed; run: pip install pandas-gbq")
  | Some read =>
      df <- call (EvReadGbq sql) (read sql credentials) ;;
      let codes := sorted (pyset (CompanyCode_astype_str df)) in
      match codes with
      | [] => raise (RuntimeError "No CompanyCodes resolved from supported entities.")
      | _ :: _ => ret codes
      end
  end.

Definition run_mapping_query (e : Env) (codes : list string)
    (credentials : option Credentials) : M QueryFrame :=
  let sql := mapping_sql (codes_array_sql codes) in
  match read_gbq e with
  | None => raise (TypeError "'NoneType' object is not callable")
  | Some read => call (EvReadGbq sql) (read sql credentials)
  end.

Definition out_dir (e : Env) : string := cwd e ++ "/exports".

Definition out_path (e : Env) : string :=
  out_dir e ++ "/product_map_" ++ now_stamp e ++ ".xlsx".

(** The part of [main] that obtains the frame. *)
Definition obtain_frame (e : Env) (g : rng) : M frame :=
  if USE_MOCK e then ret (MockFrame (fst (mock_mapping_dataframe 7 g)))
  else
    creds <- get_credentials e ;;
    codes <- fetch_company_codes e creds ;;
    df <- run_mapping_query e codes creds ;;
    ret (GbqFrame df).

Definition main (e : Env) (g : rng) : M unit :=
  _ <- call (EvMkdir (out_dir e)) (mkdir_exports e) ;;
  df <- obtain_frame e g ;;
  _ <- call (EvToExcel (out_path e) df) (write_excel e (out_path e) df) ;;
  _ <- call (EvPrintSaved (out_path e)) (Ok tt) ;;
  call (EvPrintShape (shape df)) (Ok tt).

End Script.

Arguments ret {QueryFrame A} a.
Arguments raise {QueryFrame A} e.
Arguments MockFrame {QueryFrame} df.
Arguments GbqFrame {QueryFrame} df.
Arguments EvMkdir {QueryFrame} dir.
Arguments EvGetUserCredentials {QueryFrame} scopes.
Arguments EvLoadSupportedEntities {QueryFrame}.
Arguments EvReadGbq {QueryFrame} sql.
Arguments EvToExcel {QueryFrame} path df.
Arguments EvPrintSaved {QueryFrame} path.
Arguments EvPrintShape {QueryFrame} s.
Arguments is_export {QueryFrame} ev.
Arguments is_mapping_query {QueryFrame} ev.
Arguments USE_MOCK {Credentials QueryFrame} e.
Arguments getenv_USE_MOCK {Credentials QueryFrame} e.
Arguments argv {Credentials QueryFrame} e.
Arguments installed_read_gbq {Credentials QueryFrame} e.
Arguments installed_pydata_google_auth {Credentials QueryFrame} e.
Arguments entities_file {Credentials QueryFrame} e.
Arguments mkdir_exports {Credentials QueryFrame} e.
Arguments cwd {Credentials QueryFrame} e.
Arguments now_stamp {Credentials QueryFrame} e.
Arguments write_excel {Credentials QueryFrame} e.
Arguments optional_imports {Credentials QueryFrame} e.
Arguments read_gbq {Credentials QueryFrame} e.
Arguments pydata_google_auth {Credentials QueryFrame} e.
Arguments get_credentials {Credentials QueryFrame} e.
Arguments out_dir {Credentials QueryFrame} e.
Arguments out_path {Credentials QueryFrame} e.

(** ** Concrete environments

    The query frame is the list of its [CompanyCode] cells, already
    strings; credentials carry no data. *)

Definition sample_read_gbq (lookup : list string) : read_gbq_fn unit (list string) :=
  fun q _ => match q with
             | names_sql _ => Ok lookup
             | mapping_sql _ => Ok []
             end.

(** A process without [USE_MOCK] and without [--mock], both optional
    packages installed, whose company-code lookup returns [lookup]. *)
Definition live_env (lookup : list string) : Env unit (list string) := {|
  getenv_USE_MOCK := None;
  argv := ["dev_anon.py"];
  installed_read_gbq := Some (sample_read_gbq lookup);
  installed_pydata_google_auth := Some (fun _ => Ok tt);
  entities_file := Ok ["Acme Blinds"];
  mkdir_exports := Ok tt;
  cwd := "/work";
  now_stamp := "20250101_120000";
  write_excel := fun _ _ => Ok tt
|}.

(** A process started with [USE_MOCK=1] and neither optional package
    installed. *)
Definition mock_env : Env unit (list string) := {|
  getenv_USE_MOCK := Some "1";
  argv := ["dev_anon.py"];
  installed_read_gbq := None;
  installed_pydata_google_auth := None;
  entities_file := Ok ["Acme Blinds"];
  mkdir_exports := Ok tt;
  cwd := "/work";
  now_stamp := "20250101_120000";
  write_excel := fun _ _ => Ok tt
|}.

(** A live process in which [pydata_google_auth] is installed and
    [pandas_gbq] is not. *)
Definition gbq_missing_env : Env unit (list string) := {|
  getenv_USE_MOCK := Some "0";
  argv := ["dev_anon.py"];
  installed_read_gbq := None;
  installed_pydata_google_auth := Some (fun _ => Ok tt);
  entities_file := Ok ["Acme Blinds"];
  mkdir_exports := Ok tt;
  cwd := "/work";
  now_stamp := "20250101_120000";
  write_excel := fun _ _ => Ok tt
|}.

(** A generator that always draws 0, for running [main] on the
    environments above. *)
Definition zero_randbelow (n : nat) (g : unit) : nat * unit := (0, g).

Definition zero_random_lt_008 (g : unit) : bool * unit := (false, g).

Definition sample_main (e : Env unit (list string)) : M (list string) unit :=
  main unit (fun _ => tt) zero_randbelow zero_random_lt_008 pyset
       unit (list string) (fun df => df) (fun df => (List.length df, 1)) e tt.

(** Following the spec's words for the tie-break ("first-encountered label
    among those sharing the max count", in input order): among the
    surviving joined occurrences of the pair, in row order, the product
    of the first one whose count is the largest count of the pair. *)
Definition spec_first_encountered (plato : list Plato.row) (mag : list Mag.row)
    (c i : string) : option string :=
  let occ := occurrences (joined plato mag) in
  let mine := filter (fun k => eqb (fst k) (c, i)) occ in
  let best := fold_right Nat.max 0 (map (count_occ triple_key_dec occ) mine) in
  option_map snd (find (fun k => Nat.eqb (count_occ triple_key_dec occ k) best) mine).



(** ** Concrete inputs

    The scenarios of the specification, and small inputs with a tie and
    with nulls. *)

Definition order_line (c o : string) (l : Z) (i : string) : Plato.row :=
  Plato.mk (Some c) (Some o) (Some l) (Some i).

Definition labelled (c o : string) (l : Z) (p : string) : Mag.row :=
  Mag.mk (Some c) (Some o) (Some l) (Some p).

Definition scenario_plato : list Plato.row :=
  [order_line "C01" "O1" 1 "X"; order_line "C01" "O2" 1 "X"; order_line "C01" "O3" 1 "X"].

Definition scenario_mag : list Mag.row :=
  [labelled "C01" "O1" 1 "Blinds"; labelled "C01" "O2" 1 "Blinds";
   labelled "C01" "O3" 1 "Shades"].

(** Two labels, one occurrence each; the later one in input order is the
    smaller one in label order. *)
Definition tie_plato : list Plato.row :=
  [order_line "C01" "O1" 1 "X"; order_line "C01" "O2" 1 "X"].

Definition tie_mag : list Mag.row :=
  [labelled "C01" "O1" 1 "Shades"; labelled "C01" "O2" 1 "Blinds"].

(** Disjoint key spaces. *)
Definition disjoint_mag : list Mag.row :=
  [labelled "C02" "O1" 1 "Blinds"; labelled "C01" "O9" 1 "Shades"].


(* ================================================================== *)
(** * Properties *)

(** ** Laws of the orders *)

Lemma str_lt_irrefl (a : string) : ~ String_as_OT.lt a a.
Proof. exact (@StrictOrder_Irreflexive _ _ String_as_OT.lt_strorder a). Qed.

Lemma str_lt_trans (a b c : string) :
  String_as_OT.lt a b -> String_as_OT.lt b c -> String_as_OT.lt a c.
Proof. exact (@StrictOrder_Transitive _ _ String_as_OT.lt_strorder a b c). Qed.

Lemma string_cmp_refl (a : string) : cmp a a = Eq.
Proof.
  unfold cmp, string_Ord.
  destruct (String_as_OT.compare_spec a a) as [E | L | L]; auto;
    exfalso; exact (str_lt_irrefl _ L).
Qed.

#[global] Instance string_OrdLaws : OrdLaws string.
Proof.
  split.
  - intros a b; split.
    + unfold cmp, string_Ord; intros E.
      destruct (String_as_OT.compare_spec a b) as [E' | L | L]; congruence.
    + intros ->; apply string_cmp_refl.
  - intros a b. unfold cmp, string_Ord.
    destruct (String_as_OT.compare_spec a b) as [E | L | L];
      destruct (String_as_OT.compare_spec b a) as [E' | L' | L']; simpl; auto;
      unfold String_as_OT.eq in *;
      try (subst; exfalso; exact (str_lt_irrefl _ L));
      try (subst; exfalso; exact (str_lt_irrefl _ L'));
      exfalso; exact (str_lt_irrefl _ (str_lt_trans _ _ _ L L')).
  - intros a b c. unfold cmp, string_Ord. apply str_lt_trans.
Qed.

Section OrdFacts.
Context {A : Type} `{OrdLaws A}.

Lemma cmp_refl (a : A) : cmp a a = Eq.
Proof. now apply cmp_eq. Qed.

Lemma leb_total (a b : A) : leb a b = true \/ leb b a = true.
Proof. unfold leb. rewrite (cmp_sym a b). destruct (cmp a b); simpl; auto. Qed.

Lemma leb_refl (a : A) : leb a a = true.
Proof. unfold leb. now rewrite cmp_refl. Qed.

Lemma leb_trans (a b c : A) : leb a b = true -> leb b c = true -> leb a c = true.
Proof.
  unfold leb. intros Hab Hbc.
  destruct (cmp a b) eqn:E1; try discriminate.
  - apply cmp_eq in E1; subst. exact Hbc.
  - destruct (cmp b c) eqn:E2; try discriminate.
    + apply cmp_eq in E2; subst. now rewrite E1.
    + now rewrite (cmp_trans _ _ _ E1 E2).
Qed.

Lemma leb_antisym (a b : A) : leb a b = true -> leb b a = true -> a = b.
Proof.
  unfold leb. rewrite (cmp_sym a b).
  destruct (cmp a b) eqn:E; simpl; try discriminate.
  intros _ _. now apply cmp_eq.
Qed.

Lemma ltb_leb (a b : A) : ltb a b = true -> leb a b = true.
Proof. unfold ltb, leb. destruct (cmp a b); auto. Qed.

Lemma ltb_irrefl (a : A) : ltb a a = false.
Proof. unfold ltb. now rewrite cmp_refl. Qed.

Lemma leb_neq_ltb (a b : A) : leb a b = true -> a <> b -> ltb a b = true.
Proof.
  unfold leb, ltb. destruct (cmp a b) eqn:E; auto; try discriminate.
  apply cmp_eq in E. congruence.
Qed.

Lemma eqb_true_iff (a b : A) : eqb a b = true <-> a = b.
Proof.
  unfold eqb. rewrite <- cmp_eq. destruct (cmp a b); split; congruence.
Qed.

Lemma eqb_refl (a : A) : eqb a a = true.
Proof. now apply eqb_true_iff. Qed.

End OrdFacts.

#[global] Instance prod_OrdLaws {A B} `{OrdLaws A} `{OrdLaws B} : OrdLaws (A * B).
Proof.
  split.
  - intros [a1 b1] [a2 b2]. unfold cmp, prod_Ord; simpl. split.
    + destruct (cmp a1 a2) eqn:E; try discriminate.
      intros E'. apply cmp_eq in E, E'. congruence.
    + intros [= -> ->]. now rewrite !cmp_refl.
  - intros [a1 b1] [a2 b2]. unfold cmp, prod_Ord; simpl.
    rewrite (cmp_sym a1 a2). destruct (cmp a1 a2); simpl; auto. apply cmp_sym.
  - intros [a1 b1] [a2 b2] [a3 b3]. unfold cmp, prod_Ord; simpl.
    destruct (cmp a1 a2) eqn:E1; try discriminate.
    + apply cmp_eq in E1; subst.
      destruct (cmp a2 a3) eqn:E2; auto. apply cmp_trans.
    + intros _. destruct (cmp a2 a3) eqn:E2; try discriminate.
      * apply cmp_eq in E2; subst. now rewrite E1.
      * now rewrite (cmp_trans _ _ _ E1 E2).
Qed.

(** ** The stable sort *)

Section SortFacts.
Context {A : Type} (le : A -> A -> bool).
Hypothesis le_total : forall a b, le a b = true \/ le b a = true.
Hypothesis le_trans : forall a b c, le a b = true -> le b c = true -> le a c = true.

Let leP (a b : A) : Prop := le a b = true.

Lemma insert_perm (x : A) (s : list A) : Permutation (insert le x s) (x :: s).
Proof.
  induction s as [| y s IH]; simpl; auto.
  destruct (le x y); auto.
  rewrite IH. apply perm_swap.
Qed.

Lemma isort_perm (l : list A) : Permutation (isort le l) l.
Proof.
  induction l as [| x l IH]; simpl; auto.
  rewrite insert_perm. now constructor.
Qed.

Lemma isort_In (l : list A) (x : A) : In x (isort le l) <-> In x l.
Proof.
  split; apply Permutation_in; [| symmetry]; apply isort_perm.
Qed.

Lemma insert_sorted (x : A) (s : list A) :
  StronglySorted leP s -> StronglySorted leP (insert le x s).
Proof.
  induction 1 as [| y s Hs IH Hy]; simpl.
  - repeat constructor.
  - destruct (le x y) eqn:E.
    + constructor; [constructor; auto |].
      constructor; [exact E |].
      rewrite Forall_forall in *. intros z Hz. eapply le_trans; eauto. apply Hy, Hz.
    + constructor; auto.
      rewrite Forall_forall in *. intros z Hz.
      apply (Permutation_in _ (insert_perm x s)) in Hz. destruct Hz as [<- | Hz].
      * destruct (le_total x y) as [C | C]; [congruence | exact C].
      * now apply Hy.
Qed.

Lemma isort_sorted (l : list A) : StronglySorted leP (isort le l).
Proof.
  induction l as [| x l IH]; simpl; [constructor | now apply insert_sorted].
Qed.

Lemma isort_sorted_id (l : list A) : StronglySorted leP l -> isort le l = l.
Proof.
  induction 1 as [| x l Hl IH Hx]; simpl; auto.
  rewrite IH. destruct l as [| y l]; simpl; auto.
  inversion Hx as [| ? ? Hxy _]; subst. unfold leP in Hxy. now rewrite Hxy.
Qed.

Lemma filter_insert (p : A -> bool) (x : A) (s : list A) :
  StronglySorted leP s ->
  filter p (insert le x s) = if p x then insert le x (filter p s) else filter p s.
Proof.
  induction 1 as [| y s Hs IH Hy]; simpl.
  - destruct (p x); reflexivity.
  - destruct (le x y) eqn:E; simpl.
    + destruct (p x) eqn:Px; destruct (p y) eqn:Py; simpl; rewrite ?E; auto.
      (* x passes, y does not: x goes in front of what is left of s *)
      clear IH. assert (Hall : Forall (leP x) s).
      { rewrite Forall_forall in *. intros z Hz. eapply le_trans; eauto. apply Hy, Hz. }
      clear Hy Hs. induction s as [| z s IHs]; simpl; auto.
      inversion Hall as [| ? ? Hxz Hrest]; subst.
      destruct (p z); simpl; [unfold leP in Hxz; now rewrite Hxz | now apply IHs].
    + rewrite IH. destruct (p x); destruct (p y); simpl; rewrite ?E; auto.
Qed.

Lemma filter_isort (p : A -> bool) (l : list A) :
  filter p (isort le l) = isort le (filter p l).
Proof.
  induction l as [| x l IH]; simpl; auto.
  rewrite filter_insert by apply isort_sorted.
  destruct (p x); simpl; now rewrite IH.
Qed.

(** The head of the sorted list is the first least element of the input. *)
Lemma isort_head_first (l : list A) (h : A) (t : list A) :
  isort le l = h :: t ->
  exists l1 l2, l = (l1 ++ h :: l2)%list
    /\ (forall y, In y l1 -> le y h = false)
    /\ (forall y, In y l2 -> le h y = true).
Proof.
  revert h t. induction l as [| x l IH]; simpl; [discriminate |].
  intros h t. destruct (isort le l) as [| h' t'] eqn:E; simpl.
  - intros [= <- <-].
    assert (l = []) as ->.
    { apply Permutation_nil. rewrite <- E. apply isort_perm. }
    exists [], []. repeat split; simpl; tauto.
  - destruct (IH h' t' eq_refl) as (l1 & l2 & -> & H1 & H2).
    assert (Hmin : forall y, In y (l1 ++ h' :: l2)%list -> le h' y = true).
    { intros y Hy. apply in_app_or in Hy. destruct Hy as [Hy | [<- | Hy]].
      - destruct (le_total h' y) as [C | C]; auto. rewrite (H1 y Hy) in C. discriminate.
      - destruct (le_total h' h'); auto.
      - now apply H2. }
    destruct (le x h') eqn:Ex; intros [= <- <-].
    + exists [], (l1 ++ h' :: l2)%list. repeat split; simpl; [tauto |].
      intros y Hy. eapply le_trans; eauto.
    + exists (x :: l1), l2. repeat split; simpl; auto.
      intros y [<- | Hy]; auto.
Qed.

End SortFacts.

(** ** Lists *)

Lemma find_hd_filter {A} (p : A -> bool) (l : list A) :
  find p l = hd_error (filter p l).
Proof.
  induction l as [| x l IH]; simpl; auto. destruct (p x); simpl; auto.
Qed.

Lemma find_exists {A} (p : A -> bool) (l : list A) (x : A) :
  In x l -> p x = true -> exists y, find p l = Some y.
Proof.
  intros Hin Hp. destruct (find p l) as [y |] eqn:E; [now exists y |].
  rewrite (find_none _ _ E _ Hin) in Hp. discriminate.
Qed.

Lemma filter_split_inv {A} (p : A -> bool) (l g1 g2 : list A) (r : A) :
  filter p l = (g1 ++ r :: g2)%list ->
  exists l1 l2, l = (l1 ++ r :: l2)%list /\ filter p l1 = g1 /\ filter p l2 = g2.
Proof.
  revert g1. induction l as [| x l IH]; simpl; intros g1 E.
  - destruct g1; discriminate.
  - destruct (p x) eqn:Px.
    + destruct g1 as [| y g1]; simpl in E; injection E as -> E.
      * exists [], l. simpl. auto.
      * destruct (IH _ E) as (l1 & l2 & -> & F1 & F2).
        exists (y :: l1), l2. simpl. rewrite Px, F1. auto.
    + destruct (IH _ E) as (l1 & l2 & -> & F1 & F2).
      exists (x :: l1), l2. simpl. rewrite Px. auto.
Qed.

Lemma sorted_app_tail {A} (R : A -> A -> Prop) (l1 l2 : list A) (x : A) :
  StronglySorted R (l1 ++ x :: l2) -> forall y, In y l2 -> R x y.
Proof.
  induction l1 as [| z l1 IH]; simpl; intros Hs y Hy.
  - inversion Hs as [| ? ? _ Hall]; subst. rewrite Forall_forall in Hall. now apply Hall.
  - inversion Hs; subst. now apply IH.
Qed.

Lemma sorted_map {A B} (f : A -> B) (R : B -> B -> Prop) (l : list A) :
  StronglySorted R (map f l) <-> StronglySorted (fun a b => R (f a) (f b)) l.
Proof.
  induction l as [| x l IH]; simpl; split; intros Hs; try constructor;
    inversion Hs as [| ? ? Hl Hall]; subst.
  - now apply IH.
  - rewrite Forall_forall in *. intros y Hy. apply Hall. now apply in_map.
  - now apply IH.
  - rewrite Forall_forall in *. intros y Hy. apply in_map_iff in Hy.
    destruct Hy as (a & <- & Ha). now apply Hall.
Qed.

Lemma flat_map_singletons {A B C} (f : A -> option B) (g : A -> B -> C)
    (h : C -> A) (l : list A) :
  (forall a, In a l -> exists b, f a = Some b) ->
  (forall a b, h (g a b) = a) ->
  map h (flat_map (fun a => match f a with Some b => [g a b] | None => [] end) l) = l.
Proof.
  intros Hsome Hh. induction l as [| a l IH]; simpl; auto.
  destruct (Hsome a (or_introl eq_refl)) as (b & ->). simpl.
  rewrite Hh, IH; auto. intros a' Ha'. apply Hsome. now right.
Qed.

Lemma sorted_nodup_strict {A} `{OrdLaws A} (l : list A) :
  StronglySorted (fun a b => leb a b = true) l -> NoDup l ->
  StronglySorted (fun a b => ltb a b = true) l.
Proof.
  induction 1 as [| x l Hl IH Hx]; intros Hnd; constructor;
    inversion Hnd as [| ? ? Hnotin Hnd']; subst; auto.
  rewrite Forall_forall in *. intros y Hy.
  apply leb_neq_ltb; [now apply Hx | intros ->; contradiction].
Qed.

Lemma filter_key_absent {A K} `{OrdLaws K} (f : A -> K) (l : list A) (k : K) :
  ~ In k (map f l) -> filter (fun r => eqb (f r) k) l = [].
Proof.
  intros Hk. induction l as [| w l IHl]; simpl; auto.
  destruct (eqb (f w) k) eqn:E.
  - apply eqb_true_iff in E. exfalso. apply Hk. left. exact E.
  - apply IHl. intros C. apply Hk. now right.
Qed.

Lemma filter_nodup_key {A K} `{OrdLaws K} (f : A -> K) (l : list A) (x : A) :
  NoDup (map f l) -> In x l ->
  filter (fun r => eqb (f r) (f x)) l = [x].
Proof.
  induction l as [| y l IH]; simpl; intros Hnd Hin; [contradiction |].
  inversion Hnd as [| ? ? Hnotin Hnd']; subst.
  destruct Hin as [-> | Hin].
  - rewrite eqb_refl. now rewrite filter_key_absent.
  - destruct (eqb (f y) (f x)) eqn:E.
    + apply eqb_true_iff in E. exfalso. apply Hnotin. rewrite E. now apply in_map.
    + now apply IH.
Qed.

(** Two sorted lists with the same elements, none repeated, are equal. *)
Lemma sorted_perm_eq {A} `{OrdLaws A} (l l' : list A) :
  StronglySorted (fun a b => leb a b = true) l ->
  StronglySorted (fun a b => leb a b = true) l' ->
  Permutation l l' -> l = l'.
Proof.
  intros Hs. revert l'. induction Hs as [| x l Hl IH Hx]; intros l' Hs' Hp.
  - symmetry. now apply Permutation_nil.
  - destruct Hs' as [| y l' Hl' Hy].
    + apply Permutation_sym, Permutation_nil in Hp. discriminate.
    + assert (x = y) as <-.
      { rewrite Forall_forall in *. apply leb_antisym.
        - assert (Hin : In y (x :: l)) by (eapply Permutation_in; [symmetry; eauto | now left]).
          destruct Hin as [<- | Hin]; [apply leb_refl | now apply Hx].
        - assert (Hin : In x (y :: l')) by (eapply Permutation_in; [eauto | now left]).
          destruct Hin as [<- | Hin]; [apply leb_refl | now apply Hy]. }
      f_equal. apply IH; auto. eapply Permutation_cons_inv; eauto.
Qed.

Lemma isort_perm_eq {A} `{OrdLaws A} (l l' : list A) :
  Permutation l l' -> isort leb l = isort leb l'.
Proof.
  intros Hp. apply sorted_perm_eq.
  - apply isort_sorted; [apply leb_total | apply leb_trans].
  - apply isort_sorted; [apply leb_total | apply leb_trans].
  - rewrite !isort_perm. exact Hp.
Qed.

(** ** The join and the grouped occurrences *)

Lemma option_eqb_eq {A} (eqA : A -> A -> bool) (x y : option A) :
  (forall a b, eqA a b = true <-> a = b) ->
  option_eqb eqA x y = true <-> x = y.
Proof.
  intros HA. destruct x as [a |], y as [b |]; simpl.
  - rewrite HA. split; congruence.
  - split; discriminate.
  - split; discriminate.
  - tauto.
Qed.

Lemma join_key_eqb_eq (k1 k2 : join_key) : join_key_eqb k1 k2 = true <-> k1 = k2.
Proof.
  destruct k1 as [[c1 o1] l1], k2 as [[c2 o2] l2]. unfold join_key_eqb.
  rewrite !andb_true_iff.
  rewrite !(option_eqb_eq String.eqb) by apply String.eqb_eq.
  rewrite (option_eqb_eq Z.eqb) by apply Z.eqb_eq.
  split; [intros [[-> ->] ->] | intros [= -> -> ->]]; auto.
Qed.

Lemma merge_left_app (l1 l2 : list Plato.row) (mag : list Mag.row) :
  merge_left (l1 ++ l2) mag = (merge_left l1 mag ++ merge_left l2 mag)%list.
Proof. unfold merge_left. apply flat_map_app. Qed.

Lemma joined_app (l1 l2 : list Plato.row) (mag : list Mag.row) :
  joined (l1 ++ l2) mag = (joined l1 mag ++ joined l2 mag)%list.
Proof.
  unfold joined, dropna_mg_product_name. rewrite merge_left_app. apply filter_app.
Qed.

Lemma occurrences_app (d1 d2 : list Joined.row) :
  occurrences (d1 ++ d2) = (occurrences d1 ++ occurrences d2)%list.
Proof. unfold occurrences. apply flat_map_app. Qed.

Lemma joined_In (plato : list Plato.row) (mag : list Mag.row) (j : Joined.row) :
  In j (joined plato mag) <->
  exists p m, In p plato /\ In m mag /\ plato_key p = mag_key m
    /\ notna (Mag.mg_product_name m) = true
    /\ j = joined_row p (Mag.mg_product_name m).
Proof.
  unfold joined, dropna_mg_product_name, merge_left.
  rewrite filter_In, in_flat_map. split.
  - intros [(p & Hp & Hj) Hna]. exists p.
    destruct (filter (fun m => join_key_eqb (plato_key p) (mag_key m)) mag)
      as [| m0 ms] eqn:E.
    + destruct Hj as [<- | []]. discriminate.
    + apply in_map_iff in Hj. destruct Hj as (m & <- & Hm).
      rewrite <- E in Hm. apply filter_In in Hm. destruct Hm as [Hm Hk].
      apply join_key_eqb_eq in Hk. exists m. auto.
  - intros (p & m & Hp & Hm & Hk & Hna & ->). split; [| exact Hna].
    exists p. split; [exact Hp |].
    assert (Hf : In m (filter (fun m => join_key_eqb (plato_key p) (mag_key m)) mag)).
    { apply filter_In. split; [exact Hm | now apply join_key_eqb_eq]. }
    destruct (filter (fun m => join_key_eqb (plato_key p) (mag_key m)) mag)
      as [| m0 ms]; [contradiction |].
    apply in_map_iff. exists m. auto.
Qed.

Lemma occurrences_In_frame (df : list Joined.row) (k : triple_key) :
  In k (occurrences df) <-> exists r, In r df /\ group_key r = Some k.
Proof.
  unfold occurrences. rewrite in_flat_map. split.
  - intros (r & Hr & Hk). exists r. split; auto.
    destruct (group_key r); simpl in Hk; [| contradiction].
    destruct Hk as [-> | []]. reflexivity.
  - intros (r & Hr & E). exists r. rewrite E. simpl. auto.
Qed.

(** A surviving joined occurrence comes from an order line and a labelled
    record with the same key and a product that is not null. *)
Lemma occurrences_In (plato : list Plato.row) (mag : list Mag.row) (c i p : string) :
  In (c, i, p) (occurrences (joined plato mag)) <->
  exists pl m, In pl plato /\ In m mag /\ plato_key pl = mag_key m
    /\ Mag.mg_product_name m = Some p
    /\ Plato.company_code pl = Some c /\ Plato.sales_item_id pl = Some i.
Proof.
  rewrite occurrences_In_frame. split.
  - intros (r & Hr & Hg). apply joined_In in Hr.
    destruct Hr as (pl & m & Hpl & Hm & Hk & _ & ->).
    exists pl, m. unfold group_key, joined_row in Hg. simpl in Hg.
    destruct (Plato.company_code pl), (Plato.sales_item_id pl),
      (Mag.mg_product_name m); try discriminate.
    injection Hg as -> -> ->. auto 10.
  - intros (pl & m & Hpl & Hm & Hk & Hp & Hc & Hi).
    exists (joined_row pl (Some p)). split.
    + apply joined_In. exists pl, m. rewrite Hp. auto 10.
    + unfold group_key, joined_row. simpl. now rewrite Hc, Hi.
Qed.

(** ** The frame [counts] *)

Lemma counts_triples (plato : list Plato.row) (mag : list Mag.row) :
  map counts_triple (counts plato mag)
  = isort leb (nodup triple_key_dec (occurrences (joined plato mag))).
Proof.
  unfold counts, groupby_size. rewrite map_map.
  erewrite map_ext; [apply map_id |]. intros [[c i] p]. reflexivity.
Qed.

Lemma counts_In (plato : list Plato.row) (mag : list Mag.row) (r : Counts.row) :
  In r (counts plato mag) <->
  In (counts_triple r) (occurrences (joined plato mag))
  /\ Counts.cnt r = occurrence_count plato mag (Counts.company_code r)
                      (Counts.sales_item_id r) (Counts.mg_product_name r).
Proof.
  unfold counts, groupby_size, occurrence_count. rewrite in_map_iff. split.
  - intros ([[c i] p] & <- & Hk). simpl.
    apply isort_In, nodup_In in Hk. auto.
  - intros [Hk Hn]. exists (counts_triple r). split.
    + destruct r as [c i p n]. simpl in *. now rewrite Hn.
    + now apply isort_In, nodup_In.
Qed.

Lemma counts_sorted (plato : list Plato.row) (mag : list Mag.row) :
  StronglySorted (fun r1 r2 => leb (counts_triple r1) (counts_triple r2) = true)
                 (counts plato mag).
Proof.
  apply (sorted_map counts_triple (fun a b => leb a b = true)).
  rewrite counts_triples. apply isort_sorted; [apply leb_total | apply leb_trans].
Qed.

Lemma occurrence_count_pos (plato : list Plato.row) (mag : list Mag.row) (c i p : string) :
  In (c, i, p) (occurrences (joined plato mag)) <-> 0 < occurrence_count plato mag c i p.
Proof. unfold occurrence_count. apply count_occ_In. Qed.

(** ** The frame [picked] *)

Lemma by_pair_cnt_desc_same (r1 r2 : Counts.row) :
  counts_pair r1 = counts_pair r2 ->
  by_pair_cnt_desc r1 r2 = Nat.leb (Counts.cnt r2) (Counts.cnt r1).
Proof. unfold by_pair_cnt_desc. intros ->. now rewrite cmp_refl. Qed.

Lemma by_pair_cnt_desc_total (r1 r2 : Counts.row) :
  by_pair_cnt_desc r1 r2 = true \/ by_pair_cnt_desc r2 r1 = true.
Proof.
  unfold by_pair_cnt_desc. rewrite (cmp_sym (counts_pair r1) (counts_pair r2)).
  destruct (cmp (counts_pair r1) (counts_pair r2)); simpl; auto.
  rewrite !Nat.leb_le. lia.
Qed.

Lemma by_pair_cnt_desc_trans (r1 r2 r3 : Counts.row) :
  by_pair_cnt_desc r1 r2 = true -> by_pair_cnt_desc r2 r3 = true ->
  by_pair_cnt_desc r1 r3 = true.
Proof.
  unfold by_pair_cnt_desc.
  destruct (cmp (counts_pair r1) (counts_pair r2)) eqn:E12; try discriminate;
    destruct (cmp (counts_pair r2) (counts_pair r3)) eqn:E23; try discriminate.
  - apply cmp_eq in E12, E23. rewrite E12, E23, cmp_refl.
    rewrite !Nat.leb_le. lia.
  - apply cmp_eq in E12. rewrite E12, E23. auto.
  - apply cmp_eq in E23. rewrite <- E23, E12. auto.
  - rewrite (cmp_trans _ _ _ E12 E23). auto.
Qed.

(** The pairs of [picked], in row order: the distinct pairs of [counts],
    ascending. *)
Lemma picked_pairs (plato : list Plato.row) (mag : list Mag.row) :
  map picked_pair (picked plato mag)
  = isort leb (nodup pair_key_dec
      (map counts_pair (sort_values by_pair_cnt_desc (counts plato mag)))).
Proof.
  unfold picked, groupby_first.
  apply (flat_map_singletons
           (fun k => find (fun r => eqb (counts_pair r) k)
                          (sort_values by_pair_cnt_desc (counts plato mag)))
           (fun k r => Picked.mk (fst k) (snd k) (Counts.mg_product_name r))
           picked_pair).
  - intros k Hk. apply isort_In, nodup_In, in_map_iff in Hk.
    destruct Hk as (r & <- & Hr).
    apply (find_exists _ _ r Hr). apply eqb_refl.
  - intros [c i] r. reflexivity.
Qed.

Lemma picked_pair_In (plato : list Plato.row) (mag : list Mag.row) (k : pair_key) :
  In k (map picked_pair (picked plato mag)) <->
  exists r, In r (counts plato mag) /\ counts_pair r = k.
Proof.
  rewrite picked_pairs, isort_In, nodup_In, in_map_iff. unfold sort_values.
  split; intros (r & E & Hr); exists r; split; auto;
    now apply (isort_In by_pair_cnt_desc).
Qed.

Lemma picked_pairs_NoDup (plato : list Plato.row) (mag : list Mag.row) :
  NoDup (map picked_pair (picked plato mag)).
Proof.
  rewrite picked_pairs.
  eapply Permutation_NoDup; [symmetry; apply isort_perm | apply NoDup_nodup].
Qed.

Lemma picked_sorted (plato : list Plato.row) (mag : list Mag.row) :
  StronglySorted (fun r1 r2 => by_pair r1 r2 = true) (picked plato mag).
Proof.
  apply (sorted_map picked_pair (fun a b => leb a b = true)).
  rewrite picked_pairs. apply isort_sorted; [apply leb_total | apply leb_trans].
Qed.

(** The last [sort_values] finds its input sorted already. *)
Lemma resolve_eq_picked (plato : list Plato.row) (mag : list Mag.row) :
  resolve plato mag = picked plato mag.
Proof. unfold resolve, sort_values. apply isort_sorted_id, picked_sorted. Qed.

(** The row picked for a pair is the first row of [counts], among the
    rows of that pair, whose count is the largest. *)
Lemma picked_first_max (plato : list Plato.row) (mag : list Mag.row) (row : Picked.row) :
  In row (picked plato mag) ->
  exists n l1 l2,
    counts plato mag
    = (l1 ++ Counts.mk (Picked.company_code row) (Picked.sales_item_id row)
                       (Picked.mg_product_name row) n :: l2)%list
    /\ (forall y, In y l1 -> counts_pair y = picked_pair row -> Counts.cnt y < n)
    /\ (forall y, In y l2 -> counts_pair y = picked_pair row -> Counts.cnt y <= n).
Proof.
  unfold picked, groupby_first. rewrite in_flat_map.
  intros (k & _ & Hrow).
  destruct (find (fun r => eqb (counts_pair r) k)
                 (sort_values by_pair_cnt_desc (counts plato mag)))
    as [r |] eqn:Hfind; [| contradiction].
  destruct Hrow as [<- | []].
  rewrite find_hd_filter in Hfind. unfold sort_values in Hfind.
  rewrite (filter_isort by_pair_cnt_desc by_pair_cnt_desc_total by_pair_cnt_desc_trans)
    in Hfind.
  destruct (isort by_pair_cnt_desc
              (filter (fun r => eqb (counts_pair r) k) (counts plato mag)))
    as [| h t] eqn:Hsort; [discriminate |].
  injection Hfind as ->.
  destruct (isort_head_first by_pair_cnt_desc by_pair_cnt_desc_total
              by_pair_cnt_desc_trans _ _ _ Hsort) as (g1 & g2 & Hg & Hbefore & Hafter).
  destruct (filter_split_inv _ _ _ _ _ Hg) as (l1 & l2 & Hcounts & F1 & F2).
  assert (Hr : counts_pair r = k).
  { assert (Hin : In r (filter (fun r => eqb (counts_pair r) k) (counts plato mag))).
    { rewrite Hg. apply in_or_app. right. now left. }
    apply filter_In in Hin. now apply eqb_true_iff. }
  exists (Counts.cnt r), l1, l2. unfold picked_pair. simpl.
  destruct k as [c i]. simpl. destruct r as [rc ri rp rn].
  unfold counts_pair in Hr. simpl in Hr. injection Hr as -> ->. simpl.
  split; [exact Hcounts |]. split.
  - intros y Hy Hpair.
    assert (Hy' : In y g1).
    { rewrite <- F1. apply filter_In. split; auto. now apply eqb_true_iff. }
    specialize (Hbefore y Hy').
    rewrite by_pair_cnt_desc_same in Hbefore by exact Hpair.
    simpl in Hbefore. apply Nat.leb_gt in Hbefore. exact Hbefore.
  - intros y Hy Hpair.
    assert (Hy' : In y g2).
    { rewrite <- F2. apply filter_In. split; auto. now apply eqb_true_iff. }
    specialize (Hafter y Hy').
    rewrite by_pair_cnt_desc_same in Hafter by (symmetry; exact Hpair).
    simpl in Hafter. apply Nat.leb_le in Hafter. exact Hafter.
Qed.

Lemma nodup_key_inj {A K} `{OrdLaws K} (f : A -> K) (l : list A) (x y : A) :
  NoDup (map f l) -> In x l -> In y l -> f x = f y -> x = y.
Proof.
  intros Hnd Hx Hy E.
  assert (Hf : In y (filter (fun r => eqb (f r) (f x)) l)).
  { apply filter_In. split; auto. apply eqb_true_iff. auto. }
  rewrite (filter_nodup_key f l x Hnd Hx) in Hf. destruct Hf as [-> | []]. reflexivity.
Qed.

Lemma leb_same_pair (k : pair_key) (p p' : string) :
  leb (k, p) (k, p') = leb p p'.
Proof. unfold leb at 1. unfold cmp, prod_Ord. simpl. now rewrite cmp_refl. Qed.

(* ================================================================== *)
(** * The properties of the specification *)

(** ** The resolver *)

(** C1 (majority correctness): the product selected for a
    (company_code, sales_item_id) pair of the output occurs, among the
    surviving joined occurrences of that pair, at least as often as any
    other product. *)
Theorem majority_correctness (plato : list Plato.row) (mag : list Mag.row)
    (c i p : string) :
  In (Picked.mk c i p) (resolve plato mag) ->
  forall p', occurrence_count plato mag c i p' <= occurrence_count plato mag c i p.
Proof.
  rewrite resolve_eq_picked. intros Hin p'.
  destruct (picked_first_max _ _ _ Hin) as (n & l1 & l2 & Hc & Hb & Ha).
  simpl in Hc. unfold picked_pair in Hb, Ha. simpl in Hb, Ha.
  assert (Hr : In (Counts.mk c i p n) (counts plato mag)).
  { rewrite Hc. apply in_or_app. right. now left. }
  apply counts_In in Hr. simpl in Hr. destruct Hr as [_ Hn]. rewrite <- Hn.
  destruct (occurrence_count plato mag c i p') as [| k] eqn:E; [lia |].
  assert (Hy : In (Counts.mk c i p' (S k)) (counts plato mag)).
  { apply counts_In. unfold counts_triple. simpl. split; [| now rewrite E].
    apply occurrence_count_pos. rewrite E. lia. }
  rewrite Hc in Hy. apply in_app_or in Hy. destruct Hy as [Hy | [Hy | Hy]].
  - specialize (Hb _ Hy eq_refl). simpl in Hb. lia.
  - injection Hy as _ Hk. lia.
  - specialize (Ha _ Hy eq_refl). simpl in Ha. lia.
Qed.

Lemma majority_correctness_witness :
  In (Picked.mk "C01" "X" "Blinds") (resolve scenario_plato scenario_mag)
  /\ forall p', occurrence_count scenario_plato scenario_mag "C01" "X" p'
                <= occurrence_count scenario_plato scenario_mag "C01" "X" "Blinds".
Proof.
  split; [vm_compute; auto |].
  apply majority_correctness. vm_compute. auto.
Defined.

(** The concrete scenarios of the specification. *)
Example scenario_majority :
  resolve scenario_plato scenario_mag = [Picked.mk "C01" "X" "Blinds"].
Proof. reflexivity. Qed.

Example scenario_missing_label :
  resolve scenario_plato (firstn 2 scenario_mag) = [Picked.mk "C01" "X" "Blinds"].
Proof. reflexivity. Qed.

Example scenario_no_labels :
  resolve [order_line "C01" "O1" 1 "X"] [] = [].
Proof. reflexivity. Qed.

Example scenario_tie :
  resolve tie_plato tie_mag = [Picked.mk "C01" "X" "Blinds"]
  /\ resolve (rev tie_plato) (rev tie_mag) = [Picked.mk "C01" "X" "Blinds"].
Proof. split; reflexivity. Qed.

(** Each pair of the output has one row. *)
Lemma resolve_functional (plato : list Plato.row) (mag : list Mag.row)
    (c i p p' : string) :
  In (Picked.mk c i p) (resolve plato mag) ->
  In (Picked.mk c i p') (resolve plato mag) -> p' = p.
Proof.
  rewrite resolve_eq_picked. intros H1 H2.
  assert (E : Picked.mk c i p = Picked.mk c i p').
  { apply (nodup_key_inj picked_pair (picked plato mag)); auto.
    apply picked_pairs_NoDup. }
  now injection E.
Qed.

(** C2, as the code has it: when several products share the largest count
    of a pair, the resolver selects the one whose row comes first in the
    grouped frame [counts]; [groupby] orders that frame by product within
    a pair, so this is the smallest product in string order, whatever the
    order of the input rows.  The selection is a function of the input:
    the output holds one product per pair. *)
Theorem tie_break_first_in_grouping_order (plato : list Plato.row) (mag : list Mag.row)
    (c i p : string) :
  In (Picked.mk c i p) (resolve plato mag) ->
  (exists l1 l2,
      counts plato mag
      = (l1 ++ Counts.mk c i p (occurrence_count plato mag c i p) :: l2)%list
      /\ forall y, In y l1 -> counts_pair y = (c, i) ->
                   Counts.cnt y < occurrence_count plato mag c i p)
  /\ (forall p', occurrence_count plato mag c i p' = occurrence_count plato mag c i p ->
                 leb p p' = true)
  /\ (forall p', In (Picked.mk c i p') (resolve plato mag) -> p' = p).
Proof.
  intros Hin. split; [| split].
  - rewrite resolve_eq_picked in Hin.
    destruct (picked_first_max _ _ _ Hin) as (n & l1 & l2 & Hc & Hb & _).
    simpl in Hc. unfold picked_pair in Hb. simpl in Hb.
    assert (Hr : In (Counts.mk c i p n) (counts plato mag)).
    { rewrite Hc. apply in_or_app. right. now left. }
    apply counts_In in Hr. simpl in Hr. destruct Hr as [_ Hn]. subst n.
    exists l1, l2. auto.
  - intros p' Htie. rewrite resolve_eq_picked in Hin.
    destruct (picked_first_max _ _ _ Hin) as (n & l1 & l2 & Hc & Hb & _).
    simpl in Hc. unfold picked_pair in Hb. simpl in Hb.
    assert (Hr : In (Counts.mk c i p n) (counts plato mag)).
    { rewrite Hc. apply in_or_app. right. now left. }
    apply counts_In in Hr. unfold counts_triple in Hr. simpl in Hr.
    destruct Hr as [Hocc Hn].
    assert (Hy : In (Counts.mk c i p' n) (counts plato mag)).
    { apply counts_In. unfold counts_triple. simpl. split; [| congruence].
      apply occurrence_count_pos. rewrite Htie.
      now apply occurrence_count_pos. }
    pose proof (counts_sorted plato mag) as Hs. rewrite Hc in Hs, Hy.
    apply in_app_or in Hy. destruct Hy as [Hy | [Hy | Hy]].
    + specialize (Hb _ Hy eq_refl). simpl in Hb. lia.
    + injection Hy as ->. apply leb_refl.
    + pose proof (sorted_app_tail _ _ _ _ Hs _ Hy) as Hle.
      unfold counts_triple in Hle. simpl in Hle.
      now rewrite (leb_same_pair (c, i)) in Hle.
  - intros p'. now apply resolve_functional.
Qed.

Lemma tie_break_first_in_grouping_order_witness :
  In (Picked.mk "C01" "X" "Blinds") (resolve tie_plato tie_mag)
  /\ leb "Blinds" "Shades" = true
  /\ (forall p', In (Picked.mk "C01" "X" p') (resolve tie_plato tie_mag) -> p' = "Blinds").
Proof.
  assert (Hin : In (Picked.mk "C01" "X" "Blinds") (resolve tie_plato tie_mag))
    by (vm_compute; auto).
  destruct (tie_break_first_in_grouping_order tie_plato tie_mag "C01" "X" "Blinds" Hin)
    as (_ & Hleast & Hone).
  split; [exact Hin |]. split; [| exact Hone].
  apply Hleast. reflexivity.
Defined.

(** C2, as the specification words it, fails: on a one-to-one tie whose
    first-encountered product in input order is "Shades", the resolver
    selects "Blinds". *)
Lemma tie_break_input_order_counterexample :
  ~ (forall plato mag c i p,
        In (Picked.mk c i p) (resolve plato mag) ->
        spec_first_encountered plato mag c i = Some p).
Proof.
  intros H.
  assert (Hin : In (Picked.mk "C01" "X" "Blinds") (resolve tie_plato tie_mag))
    by (vm_compute; auto).
  apply H in Hin. vm_compute in Hin. discriminate.
Qed.

(** C3 (completeness of keys): every row of the output comes from an
    order line with its pair, joined to a labelled record whose product
    is not null; and every pair of an order line that joins a labelled
    record with a product that is not null has exactly one row in the
    output. *)
Theorem completeness_of_keys (plato : list Plato.row) (mag : list Mag.row) :
  (forall row, In row (resolve plato mag) ->
     exists pl m, In pl plato /\ In m mag /\ plato_key pl = mag_key m
       /\ Mag.mg_product_name m = Some (Picked.mg_product_name row)
       /\ Plato.company_code pl = Some (Picked.company_code row)
       /\ Plato.sales_item_id pl = Some (Picked.sales_item_id row))
  /\ (forall c i,
     (exists pl m p, In pl plato /\ In m mag /\ plato_key pl = mag_key m
        /\ Mag.mg_product_name m = Some p
        /\ Plato.company_code pl = Some c /\ Plato.sales_item_id pl = Some i) ->
     exists p', filter (fun r => eqb (picked_pair r) (c, i)) (resolve plato mag)
                = [Picked.mk c i p']).
Proof.
  rewrite resolve_eq_picked. split.
  - intros row Hin.
    destruct (picked_first_max _ _ _ Hin) as (n & l1 & l2 & Hc & _).
    assert (Hr : In (Counts.mk (Picked.company_code row) (Picked.sales_item_id row)
                               (Picked.mg_product_name row) n) (counts plato mag)).
    { rewrite Hc. apply in_or_app. right. now left. }
    apply counts_In in Hr. unfold counts_triple in Hr. simpl in Hr.
    destruct Hr as [Hocc _]. now apply occurrences_In.
  - intros c i (pl & m & p & Hjoin).
    assert (Hocc : In (c, i, p) (occurrences (joined plato mag))).
    { apply occurrences_In. now exists pl, m. }
    assert (Hk : In (c, i) (map picked_pair (picked plato mag))).
    { apply picked_pair_In.
      exists (Counts.mk c i p (occurrence_count plato mag c i p)). split; auto.
      apply counts_In. unfold counts_triple. simpl. auto. }
    apply in_map_iff in Hk. destruct Hk as ([c' i' p'] & E & Hrow).
    unfold picked_pair in E. simpl in E. injection E as -> ->.
    exists p'.
    apply (filter_nodup_key picked_pair (picked plato mag) (Picked.mk c i p'));
      [apply picked_pairs_NoDup | exact Hrow].
Qed.

Lemma completeness_of_keys_witness :
  (exists pl m, In pl scenario_plato /\ In m scenario_mag /\ plato_key pl = mag_key m
     /\ Mag.mg_product_name m = Some "Blinds"
     /\ Plato.company_code pl = Some "C01" /\ Plato.sales_item_id pl = Some "X")
  /\ (exists p', filter (fun r => eqb (picked_pair r) ("C01", "X"))
                        (resolve scenario_plato scenario_mag)
                 = [Picked.mk "C01" "X" p']).
Proof.
  destruct (completeness_of_keys scenario_plato scenario_mag) as [Hfrom Honce].
  split.
  - apply (Hfrom (Picked.mk "C01" "X" "Blinds")). vm_compute. auto.
  - apply Honce.
    exists (order_line "C01" "O3" 1 "X"), (labelled "C01" "O3" 1 "Shades"), "Shades".
    simpl. auto 10.
Defined.

(** C5 (ordering invariant): the rows of the output are in ascending order
    of (company_code, sales_item_id); no pair occurs twice, so the order
    is strict. *)
Theorem output_sorted (plato : list Plato.row) (mag : list Mag.row) :
  StronglySorted (fun r1 r2 => leb (picked_pair r1) (picked_pair r2) = true)
                 (resolve plato mag)
  /\ StronglySorted (fun r1 r2 => ltb (picked_pair r1) (picked_pair r2) = true)
                    (resolve plato mag).
Proof.
  rewrite resolve_eq_picked. split.
  - exact (picked_sorted plato mag).
  - apply (sorted_map picked_pair (fun a b => ltb a b = true)).
    apply sorted_nodup_strict; [| apply picked_pairs_NoDup].
    apply (sorted_map picked_pair (fun a b => leb a b = true)).
    exact (picked_sorted plato mag).
Qed.

Lemma joined_nil (plato : list Plato.row) (mag : list Mag.row) :
  (forall p m, In p plato -> In m mag -> plato_key p <> mag_key m) ->
  joined plato mag = [].
Proof.
  intros Hno. destruct (joined plato mag) as [| j l] eqn:E; auto.
  assert (Hj : In j (joined plato mag)) by (rewrite E; now left).
  apply joined_In in Hj. destruct Hj as (p & m & Hp & Hm & Hk & _).
  exfalso. exact (Hno p m Hp Hm Hk).
Qed.

(** The output is computed from the grouped occurrences alone. *)
Lemma resolve_occurrences (plato plato' : list Plato.row) (mag mag' : list Mag.row) :
  occurrences (joined plato mag) = occurrences (joined plato' mag') ->
  resolve plato mag = resolve plato' mag'.
Proof.
  unfold resolve, picked, counts, groupby_size. now intros ->.
Qed.

(** C6 (no join, no output): with no order lines, with no labelled
    records, or with no order line whose key equals the key of a labelled
    record, the resolver returns the empty frame.  [resolve] is a total
    function: it returns a frame on every input. *)
Theorem no_join_empty_output (plato : list Plato.row) (mag : list Mag.row) :
  plato = [] \/ mag = []
  \/ (forall p m, In p plato -> In m mag -> plato_key p <> mag_key m) ->
  resolve plato mag = [].
Proof.
  intros H.
  assert (Hj : joined plato mag = []).
  { apply joined_nil. destruct H as [-> | [-> | H]]; auto; intros p m Hp Hm; contradiction. }
  unfold resolve, picked, counts. now rewrite Hj.
Qed.

Lemma no_join_empty_output_witness :
  resolve scenario_plato disjoint_mag = []
  /\ resolve [] scenario_mag = []
  /\ resolve scenario_plato [] = [].
Proof.
  split; [| split]; apply no_join_empty_output.
  - right. right. intros p m Hp Hm. simpl in Hp, Hm.
    destruct Hp as [<- | [<- | [<- | []]]]; destruct Hm as [<- | [<- | []]];
      discriminate.
  - left. reflexivity.
  - right. left. reflexivity.
Defined.




(** ** Independence of row order and of the generator state *)

Lemma filter_perm {A} (p : A -> bool) (l l' : list A) :
  Permutation l l' -> Permutation (filter p l) (filter p l').
Proof.
  induction 1 as [| x l l' _ IH | x y l | l l' l'' _ IH1 _ IH2]; simpl.
  - constructor.
  - destruct (p x); auto.
  - destruct (p x), (p y); auto. apply perm_swap.
  - now transitivity (filter p l').
Qed.

Lemma flat_map_perm_pointwise {A B} (f g : A -> list B) (l : list A) :
  (forall a, Permutation (f a) (g a)) ->
  Permutation (flat_map f l) (flat_map g l).
Proof.
  intros Hfg. induction l as [| a l IH]; simpl; auto.
  now apply Permutation_app.
Qed.

Lemma merge_left_perm (plato plato' : list Plato.row) (mag mag' : list Mag.row) :
  Permutation plato plato' -> Permutation mag mag' ->
  Permutation (merge_left plato mag) (merge_left plato' mag').
Proof.
  intros Hp Hm. unfold merge_left.
  etransitivity; [apply Permutation_flat_map, Hp |].
  apply flat_map_perm_pointwise. intros p.
  pose proof (filter_perm (fun m => join_key_eqb (plato_key p) (mag_key m)) _ _ Hm) as Hf.
  destruct (filter (fun m => join_key_eqb (plato_key p) (mag_key m)) mag) as [| m0 ms].
  - apply Permutation_nil in Hf. rewrite Hf. auto.
  - destruct (filter (fun m => join_key_eqb (plato_key p) (mag_key m)) mag')
      as [| m0' ms'].
    + apply Permutation_sym, Permutation_nil in Hf. discriminate.
    + now apply Permutation_map.
Qed.

Lemma occurrences_perm (plato plato' : list Plato.row) (mag mag' : list Mag.row) :
  Permutation plato plato' -> Permutation mag mag' ->
  Permutation (occurrences (joined plato mag)) (occurrences (joined plato' mag')).
Proof.
  intros Hp Hm. unfold occurrences, joined, dropna_mg_product_name.
  apply Permutation_flat_map, filter_perm. now apply merge_left_perm.
Qed.

Lemma groupby_size_perm (df df' : list Joined.row) :
  Permutation (occurrences df) (occurrences df') ->
  groupby_size df = groupby_size df'.
Proof.
  intros Hp. unfold groupby_size.
  assert (Hk : isort leb (nodup triple_key_dec (occurrences df))
               = isort leb (nodup triple_key_dec (occurrences df'))).
  { apply isort_perm_eq. apply NoDup_Permutation; try apply NoDup_nodup.
    intros k. rewrite !nodup_In. split; apply Permutation_in; auto.
    now symmetry. }
  rewrite Hk. apply map_ext. intros k. f_equal.
  now apply Permutation_count_occ.
Qed.

Lemma resolve_perm (plato plato' : list Plato.row) (mag mag' : list Mag.row) :
  Permutation plato plato' -> Permutation mag mag' ->
  resolve plato mag = resolve plato' mag'.
Proof.
  intros Hp Hm. unfold resolve, picked, counts.
  now rewrite (groupby_size_perm _ _ (occurrences_perm _ _ _ _ Hp Hm)).
Qed.

(** C4 (determinism): the output is a function of the two input frames.
    Two calls of [mock_mapping_dataframe] with the same seed, the second
    one starting from the generator state the first one left, return the
    same frame, row for row; and the resolver returns the same rows in
    the same order on the same two frames, even when their rows are
    presented in another order. *)
Theorem resolver_deterministic :
  (forall (rng : Type) (seed_state : Z -> rng)
          (randbelow : nat -> rng -> nat * rng)
          (random_lt_008 : rng -> bool * rng)
          (set_iter : list string -> list string) (seed : Z) (g : rng),
      let run := mock_mapping_dataframe rng seed_state randbelow random_lt_008 set_iter seed in
      fst (run (snd (run g))) = fst (run g))
  /\ (forall plato plato' mag mag',
        Permutation plato plato' -> Permutation mag mag' ->
        resolve plato mag = resolve plato' mag').
Proof.
  split.
  - intros. reflexivity.
  - exact resolve_perm.
Qed.

Lemma resolver_deterministic_witness :
  resolve scenario_plato scenario_mag = resolve (rev scenario_plato) (rev scenario_mag).
Proof.
  apply resolver_deterministic; apply Permutation_rev.
Defined.

(* ================================================================== *)
(** ** The script around the resolver *)

Section ScriptFacts.
Variable rng : Type.
Variable seed_state : Z -> rng.
Variable randbelow : nat -> rng -> nat * rng.
Variable random_lt_008 : rng -> bool * rng.
Variable set_iter : list string -> list string.
Variable Credentials : Type.
Variable QueryFrame : Type.
Variable CompanyCode_astype_str : QueryFrame -> list string.
Variable query_shape : QueryFrame -> nat * nat.

Let env : Type := Env Credentials QueryFrame.
Let fetch := fetch_company_codes Credentials QueryFrame CompanyCode_astype_str.
Let obtain := obtain_frame rng seed_state randbelow random_lt_008 set_iter
                           Credentials QueryFrame CompanyCode_astype_str.
Let run_main := main rng seed_state randbelow random_lt_008 set_iter
                     Credentials QueryFrame CompanyCode_astype_str query_shape.

(** C9: in mock mode [get_credentials] returns [None] without touching
    any collaborator, whether or not [pydata_google_auth] is installed;
    whenever it raises, the process is not in mock mode; and outside mock
    mode a missing [pydata_google_auth] raises the missing-dependency
    error. *)
Theorem get_credentials_mock (e : env) :
  (USE_MOCK e = true -> get_credentials e = ret None)
  /\ (forall x, snd (get_credentials e) = Raise x -> USE_MOCK e = false)
  /\ (USE_MOCK e = false -> pydata_google_auth e = None ->
      get_credentials e
      = raise (RuntimeError
          "pydata_google_auth not installed; run: pip install pydata-google-auth")).
Proof.
  unfold get_credentials. repeat split.
  - intros ->. reflexivity.
  - intros x. destruct (USE_MOCK e); [discriminate | reflexivity].
  - intros -> ->. reflexivity.
Qed.

(** C10: a list returned by [fetch_company_codes] is not empty, has no
    duplicate and is in strictly ascending order. *)
Theorem fetch_company_codes_sorted_distinct (e : env) (credentials : option Credentials)
    (t : list (event QueryFrame)) (codes : list string) :
  fetch e credentials = (t, Ok codes) ->
  codes <> [] /\ NoDup codes /\ StronglySorted (fun a b => ltb a b = true) codes.
Proof.
  unfold fetch, fetch_company_codes, load_supported_entities, bind, call.
  destruct (entities_file e) as [supported | x]; [| discriminate].
  destruct (read_gbq e) as [read |]; [| discriminate]. simpl.
  destruct (read (names_sql (supported_union_sql supported)) credentials)
    as [df | x]; [| discriminate]. simpl.
  destruct (sorted (pyset (CompanyCode_astype_str df))) as [| c cs] eqn:E;
    [discriminate |].
  simpl. intros [= _ <-].
  assert (Hnd : NoDup (sorted (pyset (CompanyCode_astype_str df)))).
  { unfold sorted, pyset.
    eapply Permutation_NoDup; [symmetry; apply isort_perm | apply NoDup_nodup]. }
  assert (Hs : StronglySorted (fun a b => ltb a b = true)
                 (sorted (pyset (CompanyCode_astype_str df)))).
  { apply sorted_nodup_strict; auto.
    unfold sorted. apply isort_sorted; [apply leb_total | apply leb_trans]. }
  rewrite E in Hnd, Hs. split; [discriminate | split; assumption].
Qed.

(** Obtaining the frame writes nothing. *)
Lemma obtain_frame_no_export (e : env) (g : rng) :
  Forall (fun ev => is_export ev = false) (fst (obtain e g)).
Proof.
  unfold obtain, obtain_frame, get_credentials, fetch_company_codes,
    run_mapping_query, load_supported_entities, bind, call, ret, raise.
  destruct (USE_MOCK e); simpl; [constructor |].
  destruct (read_gbq e) as [read |], (pydata_google_auth e) as [auth |]; simpl;
    try constructor.
  - destruct (auth scopes) as [c | x]; simpl; [| repeat constructor].
    destruct (entities_file e) as [supported | x]; simpl; [| repeat constructor].
    destruct (read (names_sql (supported_union_sql supported)) (Some c)) as [df | x];
      simpl; [| repeat constructor].
    destruct (sorted (pyset (CompanyCode_astype_str df))) as [| c0 cs]; simpl;
      [repeat constructor |].
    destruct (read (mapping_sql (codes_array_sql (c0 :: cs))) (Some c)); simpl;
      repeat constructor.
  - destruct (auth scopes) as [c | x]; simpl; [| repeat constructor].
    destruct (entities_file e) as [supported | x]; simpl; repeat constructor.
Qed.

(** C8: in the live pipeline, when the company-code lookup returns no
    code, [main] ends with the error of [fetch_company_codes] after the
    lookup, having sent no mapping query and written no file; and
    whenever [main] writes the file, creating the directory and
    obtaining the frame have both succeeded, so a failure of any earlier
    step leaves no output file.  (The directory [exports] is created
    before the first step that can fail.) *)
Theorem empty_lookup_aborts_before_output (e : env) (g : rng) :
  (forall creds supported read df,
      USE_MOCK e = false ->
      mkdir_exports e = Ok tt ->
      snd (get_credentials e) = Ok creds ->
      entities_file e = Ok supported ->
      read_gbq e = Some read ->
      read (names_sql (supported_union_sql supported)) creds = Ok df ->
      CompanyCode_astype_str df = [] ->
      run_main e g
      = ([EvMkdir (out_dir e); EvGetUserCredentials scopes; EvLoadSupportedEntities;
          EvReadGbq (names_sql (supported_union_sql supported))],
         Raise (RuntimeError "No CompanyCodes resolved from supported entities."))
      /\ Forall (fun ev => is_export ev = false /\ is_mapping_query ev = false)
                (fst (run_main e g)))
  /\ (forall ev, In ev (fst (run_main e g)) -> is_export ev = true ->
      exists df, mkdir_exports e = Ok tt /\ snd (obtain e g) = Ok df
                 /\ ev = EvToExcel (out_path e) df).
Proof.
  split.
  - intros creds supported read df Hmock Hmk Hcreds Hent Hread Hlook Hzero.
    assert (Hrun : run_main e g
      = ([EvMkdir (out_dir e); EvGetUserCredentials scopes; EvLoadSupportedEntities;
          EvReadGbq (names_sql (supported_union_sql supported))],
         Raise (RuntimeError "No CompanyCodes resolved from supported entities."))).
    { unfold run_main, main, obtain_frame, fetch_company_codes,
        load_supported_entities, bind, call.
      unfold get_credentials in *. rewrite Hmock in *. rewrite Hmk. simpl.
      destruct (pydata_google_auth e) as [auth |]; [| discriminate].
      unfold bind, call in *. simpl in *.
      destruct (auth scopes) as [c | x]; [| discriminate].
      simpl in *. injection Hcreds as <-.
      rewrite Hent. simpl. rewrite Hread. simpl. rewrite Hlook. simpl.
      rewrite Hzero. reflexivity. }
    split; [exact Hrun |]. rewrite Hrun. simpl. repeat constructor.
  - intros ev Hin Hexp.
    pose proof (obtain_frame_no_export e g) as Hno.
    unfold run_main, main, bind, call in Hin. unfold obtain in *.
    destruct (mkdir_exports e) as [[] | x]; simpl in Hin.
    + destruct (obtain_frame rng seed_state randbelow random_lt_008 set_iter
                  Credentials QueryFrame CompanyCode_astype_str e g)
        as [t [df | x]]; simpl in *.
      * exists df. split; [reflexivity |]. split; [reflexivity |].
        rewrite Forall_forall in Hno.
        destruct (write_excel e (out_path e) df); simpl in Hin;
          destruct Hin as [<- | Hin]; try discriminate;
          apply in_app_or in Hin; destruct Hin as [Hin | Hin];
          try (rewrite (Hno _ Hin) in Hexp; discriminate);
          simpl in Hin; intuition (subst; try discriminate; auto).
      * rewrite Forall_forall in Hno. exfalso.
        destruct Hin as [<- | Hin]; [discriminate |].
        rewrite (Hno _ Hin) in Hexp. discriminate.
    + destruct Hin as [<- | []]. discriminate.
Qed.

End ScriptFacts.

Lemma get_credentials_mock_witness :
  USE_MOCK mock_env = true
  /\ installed_pydata_google_auth mock_env = None
  /\ get_credentials mock_env = ret None.
Proof.
  split; [reflexivity |]. split; [reflexivity |].
  apply (get_credentials_mock unit (list string) mock_env). reflexivity.
Defined.

Lemma fetch_company_codes_sorted_distinct_witness :
  fetch_company_codes unit (list string) (fun df => df)
    (live_env ["C02"; "C01"; "C02"]) (Some tt)
  = ([EvLoadSupportedEntities; EvReadGbq (names_sql "SELECT 'Acme Blinds' AS name")],
     Ok ["C01"; "C02"])
  /\ (["C01"; "C02"] <> []
      /\ NoDup ["C01"; "C02"]
      /\ StronglySorted (fun a b => ltb a b = true) ["C01"; "C02"]).
Proof.
  assert (E : fetch_company_codes unit (list string) (fun df => df)
                (live_env ["C02"; "C01"; "C02"]) (Some tt)
              = ([EvLoadSupportedEntities;
                  EvReadGbq (names_sql "SELECT 'Acme Blinds' AS name")],
                 Ok ["C01"; "C02"])) by reflexivity.
  split; [exact E |].
  exact (fetch_company_codes_sorted_distinct unit (list string) (fun df => df)
           (live_env ["C02"; "C01"; "C02"]) (Some tt) _ _ E).
Defined.

Lemma empty_lookup_aborts_before_output_witness :
  sample_main (live_env [])
  = ([EvMkdir "/work/exports"; EvGetUserCredentials scopes; EvLoadSupportedEntities;
      EvReadGbq (names_sql "SELECT 'Acme Blinds' AS name")],
     Raise (RuntimeError "No CompanyCodes resolved from supported entities."))
  /\ Forall (fun ev => is_export ev = false /\ is_mapping_query ev = false)
            (fst (sample_main (live_env []))).
Proof.
  refine (proj1 (empty_lookup_aborts_before_output unit (fun _ => tt) zero_randbelow
            zero_random_lt_008 pyset unit (list string) (fun df => df)
            (fun df => (List.length df, 1)) (live_env []) tt)
          (Some tt) ["Acme Blinds"] (sample_read_gbq []) [] _ _ _ _ _ _ _);
    reflexivity.
Defined.

(* ================================================================== *)
(** * Further properties of the resolver *)

Lemma filter_flat_map {A B} (q : B -> bool) (f : A -> list B) (l : list A) :
  filter q (flat_map f l) = flat_map (fun a => filter q (f a)) l.
Proof.
  induction l as [| a l IH]; simpl; auto. now rewrite filter_app, IH.
Qed.

Lemma flat_map_ext_In {A B} (f g : A -> list B) (l : list A) :
  (forall a, In a l -> f a = g a) -> flat_map f l = flat_map g l.
Proof.
  intros H. induction l as [| a l IH]; simpl; auto.
  rewrite (H a (or_introl eq_refl)), IH; auto. intros b Hb. apply H. now right.
Qed.

Lemma flat_map_nil {A B} (f : A -> list B) (l : list A) :
  (forall a, In a l -> f a = []) -> flat_map f l = [].
Proof.
  intros H. induction l as [| a l IH]; simpl; auto.
  rewrite (H a (or_introl eq_refl)), IH; auto. intros b Hb. apply H. now right.
Qed.

(** The matches of one order line, after [dropna]. *)
Lemma matches_dropna (p : Plato.row) (mag : list Mag.row) :
  filter (fun r => notna (Joined.mg_product_name r))
    (map (fun m => joined_row p (Mag.mg_product_name m))
         (filter (fun m => join_key_eqb (plato_key p) (mag_key m)) mag))
  = flat_map (fun m =>
      if join_key_eqb (plato_key p) (mag_key m) && notna (Mag.mg_product_name m)
      then [joined_row p (Mag.mg_product_name m)] else []) mag.
Proof.
  induction mag as [| m mag IH]; cbn [filter map flat_map]; auto.
  destruct (join_key_eqb (plato_key p) (mag_key m)); cbn [filter map andb app]; auto.
  unfold joined_row at 1. cbn [Joined.mg_product_name].
  destruct (notna (Mag.mg_product_name m)); cbn [app]; now rewrite IH.
Qed.

Lemma joined_rows (plato : list Plato.row) (mag : list Mag.row) :
  joined plato mag
  = flat_map (fun p => flat_map (fun m =>
      if join_key_eqb (plato_key p) (mag_key m) && notna (Mag.mg_product_name m)
      then [joined_row p (Mag.mg_product_name m)] else []) mag) plato.
Proof.
  unfold joined, dropna_mg_product_name, merge_left. rewrite filter_flat_map.
  apply flat_map_ext. intros p. rewrite <- matches_dropna.
  destruct (filter (fun m => join_key_eqb (plato_key p) (mag_key m)) mag); reflexivity.
Qed.

(** X1: the left merge followed by [dropna] is the inner join on labelled
    records whose product is not null: the frame [joined] holds one row
    for each order line and each labelled record with the same key and a
    product, order lines in their order and, for one order line, the
    labelled records in theirs. *)
Theorem joined_is_inner_join (plato : list Plato.row) (mag : list Mag.row) :
  joined plato mag
  = flat_map (fun p => flat_map (fun m =>
      if join_key_eqb (plato_key p) (mag_key m) && notna (Mag.mg_product_name m)
      then [joined_row p (Mag.mg_product_name m)] else []) mag) plato.
Proof.
  unfold joined, dropna_mg_product_name, merge_left. rewrite filter_flat_map.
  apply flat_map_ext. intros p. rewrite <- matches_dropna.
  destruct (filter (fun m => join_key_eqb (plato_key p) (mag_key m)) mag) as [| m ms].
  - reflexivity.
  - reflexivity.
Qed.

Lemma occurrences_flat_map {A} (f : A -> list Joined.row) (l : list A) :
  occurrences (flat_map f l) = flat_map (fun a => occurrences (f a)) l.
Proof.
  induction l as [| a l IH]; simpl; auto. now rewrite occurrences_app, IH.
Qed.

Lemma count_occ_flat_map_app {A} (f g : A -> list triple_key) (l : list A)
    (k : triple_key) :
  count_occ triple_key_dec (flat_map (fun a => f a ++ g a)%list l) k
  = count_occ triple_key_dec (flat_map f l) k
    + count_occ triple_key_dec (flat_map g l) k.
Proof.
  induction l as [| a l IH]; simpl; auto.
  rewrite !count_occ_app, IH. lia.
Qed.

(** X2: the evidence adds up over both inputs: the occurrence count of a
    triple over the concatenation of two lists of order lines, or of two
    lists of labelled records, is the sum of the two counts.  Nothing is
    deduplicated on either side. *)
Theorem occurrence_count_additive (l1 l2 plato : list Plato.row)
    (m1 m2 mag : list Mag.row) (c i p : string) :
  occurrence_count (l1 ++ l2) mag c i p
  = occurrence_count l1 mag c i p + occurrence_count l2 mag c i p
  /\ occurrence_count plato (m1 ++ m2) c i p
     = occurrence_count plato m1 c i p + occurrence_count plato m2 c i p.
Proof.
  unfold occurrence_count. split.
  - now rewrite joined_app, occurrences_app, count_occ_app.
  - rewrite !joined_rows, !occurrences_flat_map.
    rewrite <- count_occ_flat_map_app. f_equal.
    apply flat_map_ext. intros pl.
    now rewrite flat_map_app, occurrences_app.
Qed.

Lemma joined_nil_from_rows (r : Plato.row) (mag : list Mag.row) :
  (forall m, In m mag -> mag_key m = plato_key r -> Mag.mg_product_name m = None) ->
  joined [r] mag = [].
Proof.
  intros H. rewrite joined_rows. cbn [flat_map]. rewrite app_nil_r.
  apply flat_map_nil. intros m Hm.
  destruct (join_key_eqb (plato_key r) (mag_key m)) eqn:Ek; cbn [andb]; auto.
  apply join_key_eqb_eq in Ek. now rewrite (H m Hm (eq_sym Ek)).
Qed.

(** X3: an order line that no labelled record with a product shares its
    key with leaves the output as it is without that order line. *)
Theorem unmatched_order_line_ignored (l1 l2 : list Plato.row) (r : Plato.row)
    (mag : list Mag.row) :
  (forall m, In m mag -> mag_key m = plato_key r -> Mag.mg_product_name m = None) ->
  resolve (l1 ++ r :: l2) mag = resolve (l1 ++ l2) mag.
Proof.
  intros H. apply resolve_occurrences.
  change (r :: l2) with ([r] ++ l2)%list.
  rewrite !joined_app.
  replace (joined [r] mag) with (@nil Joined.row); [reflexivity |].
  symmetry. apply joined_nil_from_rows. exact H.
Qed.

Lemma unmatched_order_line_ignored_witness :
  resolve (scenario_plato ++ order_line "C01" "O9" 1 "X" :: []) scenario_mag
  = resolve (scenario_plato ++ []) scenario_mag.
Proof.
  apply unmatched_order_line_ignored.
  intros m Hm. simpl in Hm.
  destruct Hm as [<- | [<- | [<- | []]]]; discriminate.
Defined.

(** X4: a labelled record whose product is null, or whose key is the key
    of no order line, leaves the frame [joined], and so the output, as it
    is without that record. *)
Theorem useless_labelled_record_ignored (plato : list Plato.row)
    (m1 m2 : list Mag.row) (m : Mag.row) :
  Mag.mg_product_name m = None
  \/ (forall p, In p plato -> plato_key p <> mag_key m) ->
  joined plato (m1 ++ m :: m2) = joined plato (m1 ++ m2)
  /\ resolve plato (m1 ++ m :: m2) = resolve plato (m1 ++ m2).
Proof.
  intros H.
  assert (Hj : joined plato (m1 ++ m :: m2) = joined plato (m1 ++ m2)).
  { rewrite !joined_rows. apply flat_map_ext_In. intros p Hp.
    rewrite !flat_map_app. f_equal. cbn [flat_map].
    destruct (join_key_eqb (plato_key p) (mag_key m)) eqn:Ek; cbn [andb]; auto.
    destruct H as [-> | H]; [reflexivity |].
    apply join_key_eqb_eq in Ek. now destruct (H p Hp). }
  split; [exact Hj |]. apply resolve_occurrences. now rewrite Hj.
Qed.

Lemma useless_labelled_record_ignored_witness :
  joined scenario_plato (scenario_mag ++ labelled "C02" "O1" 1 "Awnings" :: [])
  = joined scenario_plato (scenario_mag ++ [])
  /\ resolve scenario_plato (scenario_mag ++ labelled "C02" "O1" 1 "Awnings" :: [])
     = resolve scenario_plato (scenario_mag ++ []).
Proof.
  apply useless_labelled_record_ignored.
  right. intros p Hp. simpl in Hp.
  destruct Hp as [<- | [<- | [<- | []]]]; discriminate.
Defined.

(** The count of the product picked for a pair bounds the count of every
    product of the pair. *)
Lemma picked_count_max (plato : list Plato.row) (mag : list Mag.row)
    (c i p p' : string) :
  In (Picked.mk c i p) (picked plato mag) ->
  occurrence_count plato mag c i p' <= occurrence_count plato mag c i p.
Proof.
  intros Hin.
  destruct (picked_first_max _ _ _ Hin) as (n & l1 & l2 & Hc & Hb & Ha).
  simpl in Hc. unfold picked_pair in Hb, Ha. simpl in Hb, Ha.
  assert (Hr : In (Counts.mk c i p n) (counts plato mag)).
  { rewrite Hc. apply in_or_app. right. now left. }
  apply counts_In in Hr. simpl in Hr. destruct Hr as [_ Hn]. rewrite <- Hn.
  destruct (occurrence_count plato mag c i p') as [| k] eqn:E; [lia |].
  assert (Hy : In (Counts.mk c i p' (S k)) (counts plato mag)).
  { apply counts_In. unfold counts_triple. simpl. split; [| now rewrite E].
    apply occurrence_count_pos. rewrite E. lia. }
  rewrite Hc in Hy. apply in_app_or in Hy. destruct Hy as [Hy | [Hy | Hy]].
  - specialize (Hb _ Hy eq_refl). simpl in Hb. lia.
  - injection Hy as _ Hk. lia.
  - specialize (Ha _ Hy eq_refl). simpl in Ha. lia.
Qed.

(** X5: a product that occurs for a pair strictly more often than every
    other product is the one the output gives the pair. *)
Theorem strict_majority_selected (plato : list Plato.row) (mag : list Mag.row)
    (c i p : string) :
  (forall p', p' <> p ->
     occurrence_count plato mag c i p' < occurrence_count plato mag c i p) ->
  In (Picked.mk c i p) (resolve plato mag).
Proof.
  intros Hmaj. rewrite resolve_eq_picked.
  assert (Hpos : 0 < occurrence_count plato mag c i p).
  { assert (Hne : String "x" p <> p).
    { intros E. apply (f_equal String.length) in E. simpl in E. lia. }
    specialize (Hmaj _ Hne). lia. }
  assert (Hk : In (c, i) (map picked_pair (picked plato mag))).
  { apply picked_pair_In.
    exists (Counts.mk c i p (occurrence_count plato mag c i p)). split; auto.
    apply counts_In. unfold counts_triple. simpl. split; auto.
    now apply occurrence_count_pos. }
  apply in_map_iff in Hk. destruct Hk as ([c' i' p0] & E & Hrow).
  unfold picked_pair in E. simpl in E. injection E as -> ->.
  destruct (string_dec p0 p) as [-> | Hne]; [exact Hrow |].
  pose proof (picked_count_max plato mag c i p0 p Hrow) as Hle.
  specialize (Hmaj p0 Hne). lia.
Qed.

Lemma strict_majority_selected_witness :
  In (Picked.mk "C01" "X" "Blinds") (resolve scenario_plato scenario_mag).
Proof.
  apply strict_majority_selected. intros p' Hne.
  change (occurrence_count scenario_plato scenario_mag "C01" "X" "Blinds") with 2.
  unfold occurrence_count.
  change (occurrences (joined scenario_plato scenario_mag))
    with [("C01", "X", "Blinds"); ("C01", "X", "Blinds"); ("C01", "X", "Shades")].
  cbn [count_occ].
  destruct (triple_key_dec ("C01", "X", "Blinds") ("C01", "X", p')) as [E | _].
  - injection E as E. symmetry in E. contradiction.
  - destruct (triple_key_dec ("C01", "X", "Shades") ("C01", "X", p')); lia.
Defined.

Lemma indicator_sum (ks : list triple_key) (x : triple_key) :
  NoDup ks -> In x ks ->
  list_sum (map (fun k => if triple_key_dec x k then 1 else 0) ks) = 1.
Proof.
  induction 1 as [| k ks Hk Hnd IH]; simpl; [contradiction |].
  intros [-> | Hx].
  - destruct (triple_key_dec x x) as [_ | C]; [| contradiction].
    assert (Hz : list_sum (map (fun k => if triple_key_dec x k then 1 else 0) ks) = 0).
    { clear IH Hnd. induction ks as [| k ks IHks]; simpl; auto.
      destruct (triple_key_dec x k) as [-> | _].
      - exfalso. apply Hk. now left.
      - apply IHks. intros C. apply Hk. now right. }
    lia.
  - destruct (triple_key_dec x k) as [-> | _]; [contradiction |].
    simpl. now apply IH.
Qed.

Lemma sum_count_occ (l ks : list triple_key) :
  NoDup ks -> incl l ks ->
  list_sum (map (count_occ triple_key_dec l) ks) = List.length l.
Proof.
  intros Hnd. induction l as [| x l IH]; intros Hincl.
  - clear Hnd Hincl. induction ks as [| k ks IHks]; simpl; auto.
  - assert (Hsplit : forall ks',
      list_sum (map (count_occ triple_key_dec (x :: l)) ks')
      = list_sum (map (fun k => if triple_key_dec x k then 1 else 0) ks')
        + list_sum (map (count_occ triple_key_dec l) ks')).
    { intros ks'.
      rewrite (map_ext (count_occ triple_key_dec (x :: l))
                 (fun k => (if triple_key_dec x k then 1 else 0)
                           + count_occ triple_key_dec l k)).
      - induction ks' as [| k ks' IHk]; auto.
        change (list_sum (map ?f (k :: ks'))) with (f k + list_sum (map f ks')).
        rewrite IHk. lia.
      - intros k. cbn [count_occ]. destruct (triple_key_dec x k); reflexivity. }
    rewrite Hsplit, indicator_sum, IH; auto.
    + intros y Hy. apply Hincl. now right.
    + apply Hincl. now left.
Qed.

(** X6: the frame [counts] tallies the grouped occurrences exactly: its
    counts add up to the number of occurrences, and no row has count 0. *)
Theorem counts_tally (plato : list Plato.row) (mag : list Mag.row) :
  list_sum (map Counts.cnt (counts plato mag))
  = List.length (occurrences (joined plato mag))
  /\ Forall (fun r => 1 <= Counts.cnt r) (counts plato mag).
Proof.
  split.
  - unfold counts, groupby_size. rewrite map_map. simpl.
    apply sum_count_occ.
    + eapply Permutation_NoDup; [symmetry; apply isort_perm | apply NoDup_nodup].
    + intros k Hk. now apply isort_In, nodup_In.
  - apply Forall_forall. intros r Hr. apply counts_In in Hr.
    destruct Hr as [Hocc ->]. destruct r as [c i p n]. simpl in *.
    now apply occurrence_count_pos.
Qed.

Lemma NoDup_map_injective {A B} (f : A -> B) (l : list A) :
  (forall a b, f a = f b -> a = b) -> NoDup l -> NoDup (map f l).
Proof.
  intros Hinj. induction 1 as [| x l Hx Hnd IH]; simpl; constructor; auto.
  intros Hin. apply in_map_iff in Hin. destruct Hin as (y & E & Hy).
  apply Hinj in E. subst. contradiction.
Qed.

(** X7: the output has at most one row per order line: it is never
    longer than the order-line frame. *)
Theorem output_no_longer_than_order_lines (plato : list Plato.row) (mag : list Mag.row) :
  List.length (resolve plato mag) <= List.length plato.
Proof.
  rewrite resolve_eq_picked.
  rewrite <- (length_map picked_pair (picked plato mag)).
  rewrite <- (length_map (fun k : pair_key => (Some (fst k), Some (snd k)))
                         (map picked_pair (picked plato mag))).
  rewrite <- (length_map (fun pl => (Plato.company_code pl, Plato.sales_item_id pl)) plato).
  apply NoDup_incl_length.
  - apply NoDup_map_injective; [| apply picked_pairs_NoDup].
    intros [a b] [a' b']. simpl. congruence.
  - intros k Hk. apply in_map_iff in Hk. destruct Hk as ([c i] & <- & Hk).
    apply picked_pair_In in Hk. destruct Hk as (r & Hr & E).
    apply counts_In in Hr. destruct Hr as [Hocc _].
    destruct r as [rc ri rp rn]. unfold counts_pair, counts_triple in *. simpl in *.
    injection E as -> ->.
    apply occurrences_In in Hocc.
    destruct Hocc as (pl & m & Hpl & _ & _ & _ & Hc & Hi).
    apply in_map_iff. exists pl. split; auto. now rewrite Hc, Hi.
Qed.

(* ================================================================== *)
(** * Further properties of the script *)

Section MoreScriptFacts.
Variable rng : Type.
Variable seed_state : Z -> rng.
Variable randbelow : nat -> rng -> nat * rng.
Variable random_lt_008 : rng -> bool * rng.
Variable set_iter : list string -> list string.
Variable Credentials : Type.
Variable QueryFrame : Type.
Variable CompanyCode_astype_str : QueryFrame -> list string.
Variable query_shape : QueryFrame -> nat * nat.

Let env : Type := Env Credentials QueryFrame.
Let fetch := fetch_company_codes Credentials QueryFrame CompanyCode_astype_str.
Let obtain := obtain_frame rng seed_state randbelow random_lt_008 set_iter
                           Credentials QueryFrame CompanyCode_astype_str.
Let run_main := main rng seed_state randbelow random_lt_008 set_iter
                     Credentials QueryFrame CompanyCode_astype_str query_shape.
Let mock := mock_mapping_dataframe rng seed_state randbelow random_lt_008 set_iter.

Lemma optional_imports_none (e : env) :
  installed_read_gbq e = None \/ installed_pydata_google_auth e = None ->
  read_gbq e = None /\ pydata_google_auth e = None.
Proof.
  unfold read_gbq, pydata_google_auth, optional_imports.
  destruct (installed_read_gbq e), (installed_pydata_google_auth e);
    intros [H | H]; try discriminate; auto.
Qed.

(** X8: the two optional imports stand or fall together, so a live run
    with either package missing ends in [get_credentials] with the
    [pydata_google_auth] message, also when [pydata_google_auth] is
    installed and only [pandas_gbq] is missing; nothing but the creation
    of the directory has happened by then. *)
Theorem live_run_with_missing_package (e : env) (g : rng) :
  USE_MOCK e = false ->
  mkdir_exports e = Ok tt ->
  installed_read_gbq e = None \/ installed_pydata_google_auth e = None ->
  run_main e g
  = ([EvMkdir (out_dir e)],
     Raise (RuntimeError
       "pydata_google_auth not installed; run: pip install pydata-google-auth")).
Proof.
  intros Hmock Hmk Hmiss.
  destruct (optional_imports_none e Hmiss) as [_ Hauth].
  unfold run_main, main, obtain_frame, get_credentials, bind, call, raise.
  now rewrite Hmk, Hmock, Hauth.
Qed.

(** The events of obtaining the frame are calls to the three
    collaborators of the live path. *)
Lemma obtain_frame_events (e : env) (g : rng) :
  Forall (fun ev => match ev with
                    | EvGetUserCredentials _ | EvLoadSupportedEntities | EvReadGbq _ => True
                    | _ => False
                    end) (fst (obtain e g)).
Proof.
  unfold obtain, obtain_frame, get_credentials, fetch_company_codes,
    run_mapping_query, load_supported_entities, bind, call, ret, raise.
  destruct (USE_MOCK e); simpl; [constructor |].
  destruct (read_gbq e) as [read |], (pydata_google_auth e) as [auth |]; simpl;
    try constructor.
  - destruct (auth scopes) as [c | x]; simpl; [| repeat constructor].
    destruct (entities_file e) as [supported | x]; simpl; [| repeat constructor].
    destruct (read (names_sql (supported_union_sql supported)) (Some c)) as [df | x];
      simpl; [| repeat constructor].
    destruct (sorted (pyset (CompanyCode_astype_str df))) as [| c0 cs]; simpl;
      [repeat constructor |].
    destruct (read (mapping_sql (codes_array_sql (c0 :: cs))) (Some c)); simpl;
      repeat constructor.
  - destruct (auth scopes) as [c | x]; simpl; [| repeat constructor].
    destruct (entities_file e) as [supported | x]; simpl; repeat constructor.
Qed.

(** X9: within [main] the entities file is read only when both optional
    packages were imported, so the check [read_gbq is None] of
    [fetch_company_codes] never fires there. *)
Theorem entities_loaded_only_with_packages (e : env) (g : rng) :
  In EvLoadSupportedEntities (fst (run_main e g)) ->
  exists read auth, read_gbq e = Some read /\ pydata_google_auth e = Some auth.
Proof.
  intros Hin.
  assert (Hobt : In EvLoadSupportedEntities
                   (fst (obtain_frame rng seed_state randbelow random_lt_008 set_iter
                           Credentials QueryFrame CompanyCode_astype_str e g))).
  { unfold run_main, main, bind, call in Hin.
    destruct (mkdir_exports e) as [[] | x]; simpl in Hin.
    - destruct (obtain_frame rng seed_state randbelow random_lt_008 set_iter
                  Credentials QueryFrame CompanyCode_astype_str e g) as [t [df | x]];
        simpl in *.
      + destruct (write_excel e (out_path e) df); simpl in Hin;
          destruct Hin as [C | Hin]; try discriminate;
          apply in_app_or in Hin; destruct Hin as [Hin | Hin]; auto;
          simpl in Hin; intuition discriminate.
      + destruct Hin as [C | Hin]; [discriminate | exact Hin].
    - destruct Hin as [C | []]. discriminate. }
  clear Hin. revert Hobt.
  unfold obtain_frame, get_credentials, bind, call, ret, raise.
  destruct (USE_MOCK e); simpl; [tauto |].
  unfold read_gbq, pydata_google_auth, optional_imports.
  destruct (installed_read_gbq e) as [read |], (installed_pydata_google_auth e) as [auth |];
    simpl; try tauto.
  intros _. now exists read, auth.
Qed.

(** X10: in mock mode [main] needs no credentials, no entities file and
    no query: after creating the directory it exports the synthetic
    mapping for seed 7 and prints, and it fails only if creating the
    directory or writing the file fails. *)
Theorem mock_run_is_offline (e : env) (g : rng) :
  USE_MOCK e = true ->
  run_main e g
  = match mkdir_exports e with
    | Raise x => ([EvMkdir (out_dir e)], Raise x)
    | Ok _ =>
        let df := MockFrame (fst (mock 7%Z g)) in
        match write_excel e (out_path e) df with
        | Raise x => ([EvMkdir (out_dir e); EvToExcel (out_path e) df], Raise x)
        | Ok _ => ([EvMkdir (out_dir e); EvToExcel (out_path e) df;
                    EvPrintSaved (out_path e); EvPrintShape (shape QueryFrame query_shape df)],
                   Ok tt)
        end
    end.
Proof.
  intros Hmock. unfold run_main, main, obtain_frame, bind, call, ret, mock.
  rewrite Hmock.
  destruct (mkdir_exports e) as [[] | x]; simpl; [| reflexivity].
  destruct (write_excel e (out_path e) _) as [[] | x]; reflexivity.
Qed.

(** X11: a live run in which every collaborator succeeds sends the
    mapping query for exactly the sorted distinct codes of the lookup,
    with the credentials it obtained, exports the frame that query
    returned, unchanged, and prints its shape. *)
Theorem live_run_success (e : env) (g : rng) (read : read_gbq_fn Credentials QueryFrame)
    (auth : auth_module Credentials) (c : Credentials) (supported : list string)
    (names out : QueryFrame) :
  USE_MOCK e = false ->
  mkdir_exports e = Ok tt ->
  installed_read_gbq e = Some read ->
  installed_pydata_google_auth e = Some auth ->
  auth scopes = Ok c ->
  entities_file e = Ok supported ->
  read (names_sql (supported_union_sql supported)) (Some c) = Ok names ->
  CompanyCode_astype_str names <> [] ->
  read (mapping_sql (codes_array_sql (sorted (pyset (CompanyCode_astype_str names)))))
       (Some c) = Ok out ->
  write_excel e (out_path e) (GbqFrame out) = Ok tt ->
  run_main e g
  = ([EvMkdir (out_dir e); EvGetUserCredentials scopes; EvLoadSupportedEntities;
      EvReadGbq (names_sql (supported_union_sql supported));
      EvReadGbq (mapping_sql
                   (codes_array_sql (sorted (pyset (CompanyCode_astype_str names)))));
      EvToExcel (out_path e) (GbqFrame out);
      EvPrintSaved (out_path e); EvPrintShape (query_shape out)],
     Ok tt).
Proof.
  intros Hmock Hmk Hread Hauth Hc Hent Hnames Hne Hout Hw.
  assert (Hcodes : sorted (pyset (CompanyCode_astype_str names)) <> []).
  { intros E. apply Hne.
    destruct (CompanyCode_astype_str names) as [| x xs]; auto.
    assert (Hin : In x (sorted (pyset (x :: xs)))).
    { unfold sorted, pyset. apply isort_In, nodup_In. now left. }
    rewrite E in Hin. contradiction. }
  unfold run_main, main, obtain_frame, get_credentials, fetch_company_codes,
    run_mapping_query, load_supported_entities, bind, call, ret, raise.
  unfold read_gbq, pydata_google_auth, optional_imports.
  rewrite Hmk, Hmock, Hread, Hauth. simpl. rewrite Hc. simpl.
  rewrite Hent. simpl. rewrite Hnames. simpl.
  destruct (sorted (pyset (CompanyCode_astype_str names))) as [| c0 cs] eqn:E;
    [contradiction |].
  simpl. rewrite Hout. simpl. rewrite Hw. reflexivity.
Qed.

(** X12: [main] prints the saved message exactly when it ends normally,
    and then [to_excel] has returned for the frame it obtained: the
    message is never printed for a file that was not written. *)
Theorem saved_message_iff_success (e : env) (g : rng) :
  (In (EvPrintSaved (out_path e)) (fst (run_main e g)) <-> snd (run_main e g) = Ok tt)
  /\ (snd (run_main e g) = Ok tt ->
      exists df, snd (obtain e g) = Ok df /\ write_excel e (out_path e) df = Ok tt).
Proof.
  pose proof (obtain_frame_events e g) as Hev.
  unfold run_main, main, bind, call. unfold obtain in *.
  destruct (mkdir_exports e) as [[] | x]; simpl.
  - destruct (obtain_frame rng seed_state randbelow random_lt_008 set_iter
                Credentials QueryFrame CompanyCode_astype_str e g) as [t [df | x]];
      simpl in *; rewrite Forall_forall in Hev.
    + destruct (write_excel e (out_path e) df) as [[] | x] eqn:Ew; simpl.
      * split; [| intros _; now exists df]. split; auto.
        intros _. right. apply in_or_app. right. simpl. auto.
      * split; [| discriminate]. split; [| discriminate].
        intros [C | Hin]; [discriminate |].
        apply in_app_or in Hin. destruct Hin as [Hin | [C | []]]; [| discriminate].
        now apply Hev in Hin.
    + split; [| discriminate]. split; [| discriminate].
      intros [C | Hin]; [discriminate |]. now apply Hev in Hin.
  - split; [| discriminate]. split; [| discriminate].
    intros [C | []]. discriminate.
Qed.

(** X13: the codes [fetch_company_codes] returns are exactly the values
    of the lookup's CompanyCode column: none is lost and none is made up. *)
Theorem fetch_company_codes_members (e : env) (credentials : option Credentials)
    (read : read_gbq_fn Credentials QueryFrame) (supported : list string)
    (df : QueryFrame) (t : list (event QueryFrame)) (codes : list string) :
  entities_file e = Ok supported ->
  read_gbq e = Some read ->
  read (names_sql (supported_union_sql supported)) credentials = Ok df ->
  fetch e credentials = (t, Ok codes) ->
  forall c, In c codes <-> In c (CompanyCode_astype_str df).
Proof.
  intros Hent Hread Hdf.
  unfold fetch, fetch_company_codes, load_supported_entities, bind, call, ret, raise.
  rewrite Hent. simpl. rewrite Hread. simpl. rewrite Hdf. simpl.
  destruct (sorted (pyset (CompanyCode_astype_str df))) as [| c0 cs] eqn:E;
    [discriminate |].
  simpl. intros [= _ <-] c. rewrite <- E. unfold sorted, pyset.
  now rewrite isort_In, nodup_In.
Qed.

End MoreScriptFacts.

Lemma live_run_with_missing_package_witness :
  installed_pydata_google_auth gbq_missing_env <> None
  /\ sample_main gbq_missing_env
     = ([EvMkdir "/work/exports"],
        Raise (RuntimeError
          "pydata_google_auth not installed; run: pip install pydata-google-auth")).
Proof.
  split; [discriminate |].
  apply (live_run_with_missing_package unit (fun _ => tt) zero_randbelow
           zero_random_lt_008 pyset unit (list string) (fun df => df)
           (fun df => (List.length df, 1)) gbq_missing_env tt).
  - reflexivity.
  - reflexivity.
  - left. reflexivity.
Defined.

Lemma entities_loaded_only_with_packages_witness :
  exists read auth,
    read_gbq (live_env ["C01"]) = Some read
    /\ pydata_google_auth (live_env ["C01"]) = Some auth.
Proof.
  apply (entities_loaded_only_with_packages unit (fun _ => tt) zero_randbelow
           zero_random_lt_008 pyset unit (list string) (fun df => df)
           (fun df => (List.length df, 1)) (live_env ["C01"]) tt).
  vm_compute. auto.
Defined.

Lemma mock_run_is_offline_witness :
  sample_main mock_env
  = (let df := MockFrame (fst (mock_mapping_dataframe unit (fun _ => tt) zero_randbelow
                                 zero_random_lt_008 pyset 7%Z tt)) in
     ([EvMkdir "/work/exports";
       EvToExcel "/work/exports/product_map_20250101_120000.xlsx" df;
       EvPrintSaved "/work/exports/product_map_20250101_120000.xlsx";
       EvPrintShape (shape (list string) (fun q => (List.length q, 1)) df)],
      Ok tt)).
Proof.
  apply (mock_run_is_offline unit (fun _ => tt) zero_randbelow
           zero_random_lt_008 pyset unit (list string) (fun df => df)
           (fun df => (List.length df, 1)) mock_env tt).
  reflexivity.
Defined.

Lemma live_run_success_witness :
  sample_main (live_env ["C02"; "C01"; "C02"])
  = ([EvMkdir "/work/exports"; EvGetUserCredentials scopes; EvLoadSupportedEntities;
      EvReadGbq (names_sql "SELECT 'Acme Blinds' AS name");
      EvReadGbq (mapping_sql "ARRAY<STRING>['C01','C02']");
      EvToExcel "/work/exports/product_map_20250101_120000.xlsx" (GbqFrame []);
      EvPrintSaved "/work/exports/product_map_20250101_120000.xlsx";
      EvPrintShape (0, 1)],
     Ok tt).
Proof.
  apply (live_run_success unit (fun _ => tt) zero_randbelow
           zero_random_lt_008 pyset unit (list string) (fun df => df)
           (fun df => (List.length df, 1)) (live_env ["C02"; "C01"; "C02"]) tt
           (sample_read_gbq ["C02"; "C01"; "C02"]) (fun _ => Ok tt) tt
           ["Acme Blinds"] ["C02"; "C01"; "C02"] []);
    try reflexivity.
  discriminate.
Defined.

Lemma saved_message_iff_success_witness :
  In (EvPrintSaved "/work/exports/product_map_20250101_120000.xlsx")
     (fst (sample_main (live_env ["C01"]))).
Proof.
  apply (proj1 (saved_message_iff_success unit (fun _ => tt) zero_randbelow
           zero_random_lt_008 pyset unit (list string) (fun df => df)
           (fun df => (List.length df, 1)) (live_env ["C01"]) tt)).
  reflexivity.
Defined.

Lemma fetch_company_codes_members_witness :
  In "C02" ["C01"; "C02"] <-> In "C02" ["C02"; "C01"; "C02"].
Proof.
  refine (fetch_company_codes_members unit (list string) (fun df => df)
           (live_env ["C02"; "C01"; "C02"]) (Some tt)
           (sample_read_gbq ["C02"; "C01"; "C02"]) ["Acme Blinds"]
           ["C02"; "C01"; "C02"]
           [EvLoadSupportedEntities; EvReadGbq (names_sql "SELECT 'Acme Blinds' AS name")]
           ["C01"; "C02"] _ _ _ _ "C02");
    reflexivity.
Defined.

(* ================================================================== *)
(** * The query text *)

Lemma str_append_assoc (a b c : string) : (a ++ b) ++ c = a ++ (b ++ c).
Proof. induction a as [| x a IH]; simpl; congruence. Qed.

Lemma str_append_inj_l (s a b : string) : s ++ a = s ++ b -> a = b.
Proof. induction s as [| x s IH]; simpl; intros E; auto. injection E as E. auto. Qed.

Lemma str_length_append (a b : string) :
  String.length (a ++ b) = String.length a + String.length b.
Proof. induction a as [| x a IH]; simpl; auto. Qed.

Lemma str_append_inj_r (a b s : string) : a ++ s = b ++ s -> a = b.
Proof.
  revert b. induction a as [| x a IH]; intros [| y b] E; simpl in E; auto.
  - apply (f_equal String.length) in E. simpl in E.
    rewrite str_length_append in E. lia.
  - apply (f_equal String.length) in E. simpl in E.
    rewrite str_length_append in E. lia.
  - injection E as -> E. f_equal. auto.
Qed.

Lemma concat_cons2 (sep x y : string) (l : list string) :
  String.concat sep (x :: y :: l) = x ++ sep ++ String.concat sep (y :: l).
Proof. reflexivity. Qed.

Lemma split_at_quote (c c' r r' : string) :
  has_char quote c = false -> has_char quote c' = false ->
  c ++ String quote r = c' ++ String quote r' -> c = c' /\ r = r'.
Proof.
  revert c'. induction c as [| x c IH]; intros [| y c'] Hc Hc' E;
    cbn [append has_char] in *.
  - injection E as ->. auto.
  - injection E as Ey _. subst y. rewrite Ascii.eqb_refl in Hc'. discriminate.
  - injection E as Ex _. subst x. rewrite Ascii.eqb_refl in Hc. discriminate.
  - injection E as Exy E. subst y. apply orb_false_iff in Hc, Hc'.
    destruct (IH c' (proj2 Hc) (proj2 Hc') E) as [-> ->]. auto.
Qed.

Lemma quoted_concat_cons (c : string) (l : list string) :
  String.concat "," (map (fun c => "'" ++ c ++ "'") (c :: l))
  = String quote (c ++ String quote
      match l with
      | [] => EmptyString
      | _ :: _ => String "," (String.concat "," (map (fun c => "'" ++ c ++ "'") l))
      end).
Proof.
  destruct l as [| d l]; cbn [map].
  - simpl. reflexivity.
  - rewrite concat_cons2. simpl. rewrite str_append_assoc. reflexivity.
Qed.

(** X14: neither query text escapes what it interpolates: a code that
    contains [','] yields the text of two codes, and a supported name that
    contains the text between two names yields the text of two names. *)
Theorem query_text_not_escaped (a b : string) (rest : list string) :
  codes_array_sql ((a ++ "','" ++ b) :: rest) = codes_array_sql (a :: b :: rest)
  /\ supported_union_sql ((a ++ "' AS name UNION ALL SELECT '" ++ b) :: rest)
     = supported_union_sql (a :: b :: rest).
Proof.
  unfold codes_array_sql, supported_union_sql. split.
  - rewrite !quoted_concat_cons. rewrite (str_append_assoc a). reflexivity.
  - cbn [map]. rewrite concat_cons2.
    destruct rest as [| r rest]; cbn [map String.concat];
      rewrite ?str_append_assoc; simpl; rewrite ?str_append_assoc; reflexivity.
Qed.

Lemma quoted_concat_inj (l l' : list string) :
  Forall (fun c => has_char quote c = false) l ->
  Forall (fun c => has_char quote c = false) l' ->
  String.concat "," (map (fun c => "'" ++ c ++ "'") l)
  = String.concat "," (map (fun c => "'" ++ c ++ "'") l') ->
  l = l'.
Proof.
  intros Hl. revert l'. induction Hl as [| c l Hc Hl IH]; intros l' Hl' E.
  - destruct l' as [| c' l']; auto.
    rewrite quoted_concat_cons in E. discriminate.
  - destruct Hl' as [| c' l' Hc' Hl'].
    + rewrite quoted_concat_cons in E. discriminate.
    + rewrite !quoted_concat_cons in E. injection E as E.
      destruct (split_at_quote _ _ _ _ Hc Hc' E) as [-> Et]. f_equal.
      destruct l as [| d l], l' as [| d' l']; auto; try discriminate.
      injection Et as Et. now apply IH.
Qed.

(** X15: for codes that contain no single quote, the interpolated array
    text determines the list of codes: two different lists never give
    the same query. *)
Theorem codes_array_sql_injective (codes codes' : list string) :
  Forall (fun c => has_char quote c = false) codes ->
  Forall (fun c => has_char quote c = false) codes' ->
  codes_array_sql codes = codes_array_sql codes' ->
  codes = codes'.
Proof.
  intros H H' E. unfold codes_array_sql in E.
  apply str_append_inj_l in E. apply str_append_inj_r in E.
  now apply quoted_concat_inj.
Qed.

Lemma codes_array_sql_injective_witness :
  codes_array_sql ["C01"; "C02"] = codes_array_sql ["C01"; "C02"]
  /\ ["C01"; "C02"] = ["C01"; "C02"].
Proof.
  split; [reflexivity |].
  apply codes_array_sql_injective; repeat constructor.
Defined.

(* ================================================================== *)
(** * The synthetic data *)

Lemma uint_of_string_zeros (k : nat) (s : string) :
  NilEmpty.uint_of_string (zeros k ++ s)
  = option_map (Nat.iter k Decimal.D0) (NilEmpty.uint_of_string s).
Proof.
  induction k as [| k IH]; simpl.
  - now destruct (NilEmpty.uint_of_string s).
  - rewrite IH. now destruct (NilEmpty.uint_of_string s).
Qed.

Lemma of_uint_leading_zeros (k : nat) (d : Decimal.uint) :
  Nat.of_uint (Nat.iter k Decimal.D0 d) = Nat.of_uint d.
Proof. induction k as [| k IH]; simpl; auto. Qed.

Lemma uint_of_decimal_string (i : nat) :
  option_map Nat.of_uint
    (NilEmpty.uint_of_string (NilZero.string_of_uint (Nat.to_uint i))) = Some i.
Proof.
  pose proof (DecimalNat.Unsigned.of_to i) as Hi.
  destruct (Nat.to_uint i) as [| d | d | d | d | d | d | d | d | d | d] eqn:E;
    try (unfold NilZero.string_of_uint; rewrite NilEmpty.usu;
         cbn [option_map]; f_equal; exact Hi).
  rewrite <- Hi. reflexivity.
Qed.

(** Reading the padded number back gives the number. *)
Lemma fmt_06d_read_back (i : nat) :
  option_map Nat.of_uint (NilEmpty.uint_of_string (fmt_06d i)) = Some i.
Proof.
  unfold fmt_06d. rewrite uint_of_string_zeros.
  pose proof (uint_of_decimal_string i) as H.
  destruct (NilEmpty.uint_of_string (NilZero.string_of_uint (Nat.to_uint i)));
    simpl in *; [| discriminate].
  now rewrite of_uint_leading_zeros.
Qed.

Lemma fmt_06d_inj (i j : nat) : fmt_06d i = fmt_06d j -> i = j.
Proof.
  intros E. pose proof (fmt_06d_read_back i) as Hi.
  rewrite E, fmt_06d_read_back in Hi. congruence.
Qed.

Lemma zeros_length (k : nat) : String.length (zeros k) = k.
Proof. induction k; simpl; auto. Qed.

(** X16: the order suffix [f"{i:06d}"] has at least six characters and
    determines [i]: different line indices never share an order number. *)
Theorem fmt_06d_width_and_injective (i j : nat) :
  6 <= String.length (fmt_06d i)
  /\ (i < 3000 -> String.length (fmt_06d i) = 6)
  /\ (("25-" ++ fmt_06d i = "25-" ++ fmt_06d j) -> i = j).
Proof.
  split; [| split].
  - unfold fmt_06d. rewrite str_length_append, zeros_length. lia.
  - intros Hi.
    assert (Hall : forallb (fun i => Nat.eqb (String.length (fmt_06d i)) 6)
                           (seq 0 3000) = true) by (vm_compute; reflexivity).
    rewrite forallb_forall in Hall. apply Nat.eqb_eq, Hall, in_seq. lia.
  - intros E. injection E as E. now apply fmt_06d_inj.
Qed.

Lemma fmt_06d_width_and_injective_witness :
  String.length (fmt_06d 42) = 6 /\ 42 = 42.
Proof.
  destruct (fmt_06d_width_and_injective 42 42) as (_ & Hlen & Hinj).
  split; [apply Hlen; lia | apply Hinj; reflexivity].
Defined.

Lemma dict_get_In (d : list (string * string)) (k : string) :
  In k (map fst d) -> In (dict_get d k) (map snd d).
Proof.
  induction d as [| [k' v] d IH]; simpl; [contradiction |].
  destruct (String.eqb k' k) eqn:E; [now left |].
  intros [-> | Hin]; [rewrite String.eqb_refl in E; discriminate | right; auto].
Qed.

Lemma items_are_keys (it : string) : In it items -> In it (map fst product_of_item).
Proof. simpl. tauto. Qed.

Lemma NoDup_map_compose {A B C} (f : A -> B) (h : B -> C) (l : list A) :
  NoDup (map (fun a => h (f a)) l) -> NoDup (map f l).
Proof. rewrite <- (map_map f h). apply NoDup_map_inv. Qed.

Section MockFacts.
Variable rng : Type.
Variable seed_state : Z -> rng.
Variable randbelow : nat -> rng -> nat * rng.
Variable random_lt_008 : rng -> bool * rng.
Variable set_iter : list string -> list string.

Let build := build_rows rng randbelow.
Let build_mag := build_mag_rows rng randbelow random_lt_008 set_iter.
Let mock := mock_mapping_dataframe rng seed_state randbelow random_lt_008 set_iter.

Lemma build_rows_orders (range : list nat) (g : rng) :
  map tuple_order (fst (build range g)) = map (fun i => "25-" ++ fmt_06d i) range.
Proof.
  unfold build. revert g. induction range as [| i range IH]; intros g; simpl; auto.
  destruct (choice rng randbelow companies g) as [cc g1].
  destruct (choice rng randbelow items g1) as [it g2].
  destruct (randint rng randbelow 1 4 g2) as [line g3].
  specialize (IH g3). destruct (build_rows rng randbelow range g3) as [rest g4].
  simpl in *. now rewrite IH.
Qed.

Lemma build_rows_orders_NoDup (range : list nat) (g : rng) :
  NoDup range -> NoDup (map tuple_order (fst (build range g))).
Proof.
  intros Hnd. rewrite build_rows_orders. apply NoDup_map_injective; auto.
  intros i j E. injection E as E. now apply fmt_06d_inj.
Qed.

Lemma build_mag_rows_keys (rows : list plato_tuple) (g : rng) :
  Forall2 (fun r m => tuple_company m = tuple_company r
                      /\ tuple_order m = tuple_order r
                      /\ tuple_line m = tuple_line r)
          rows (fst (build_mag rows g)).
Proof.
  unfold build_mag. revert g.
  induction rows as [| [[[cc order] line] it] rows IH]; intros g;
    cbn [build_mag_rows].
  - constructor.
  - destruct (random_lt_008 g) as [flip g1].
    match goal with
    | |- context [if flip then ?a else ?b] =>
        destruct (if flip then a else b) as [prod g2]
    end.
    specialize (IH g2).
    destruct (build_mag_rows rng randbelow random_lt_008 set_iter rows g2) as [rest g3].
    simpl in *. constructor; auto.
Qed.

Section InRange.
Hypothesis randbelow_lt : forall n g, 0 < n -> fst (randbelow n g) < n.
Hypothesis set_iter_In : forall l x, In x (set_iter l) <-> In x l.

Lemma choice_In (l : list string) (g : rng) :
  l <> [] -> In (fst (choice rng randbelow l g)) l.
Proof.
  intros Hl. unfold choice.
  pose proof (randbelow_lt (List.length l) g) as Hlt.
  destruct (randbelow (List.length l) g) as [i g']. simpl in *.
  apply nth_In. apply Hlt. destruct l; [contradiction | simpl; lia].
Qed.

Lemma randint_1_4 (g : rng) :
  (1 <= fst (randint rng randbelow 1 4 g) <= 4)%Z.
Proof.
  unfold randint. change (Z.to_nat (4 - 1 + 1)) with 4.
  pose proof (randbelow_lt 4 g) as Hlt.
  destruct (randbelow 4 g) as [i g']. cbn [fst] in *. lia.
Qed.

Lemma build_rows_fields (range : list nat) (g : rng) :
  Forall (fun r => In (tuple_company r) companies /\ In (tuple_last r) items
                   /\ (1 <= tuple_line r <= 4)%Z)
         (fst (build range g)).
Proof.
  unfold build. revert g. induction range as [| i range IH]; intros g;
    cbn [build_rows].
  - constructor.
  - pose proof (choice_In companies g) as Hcc.
    destruct (choice rng randbelow companies g) as [cc g1].
    pose proof (choice_In items g1) as Hit.
    destruct (choice rng randbelow items g1) as [it g2].
    pose proof (randint_1_4 g2) as Hline.
    destruct (randint rng randbelow 1 4 g2) as [line g3].
    specialize (IH g3). destruct (build_rows rng randbelow range g3) as [rest g4].
    cbn [fst] in *. constructor; [| exact IH].
    cbn [tuple_company tuple_last tuple_line].
    split; [apply Hcc; discriminate |].
    split; [apply Hit; discriminate | exact Hline].
Qed.

(** The product of a labelled record is the base product of its order
    line's item, or another product of the table. *)
Lemma build_mag_rows_products (rows : list plato_tuple) (g : rng) :
  Forall2 (fun r m => tuple_last m = dict_get product_of_item (tuple_last r)
                      \/ (In (tuple_last m) products
                          /\ tuple_last m <> dict_get product_of_item (tuple_last r)))
          rows (fst (build_mag rows g)).
Proof.
  clear mock seed_state. unfold build_mag. revert g.
  induction rows as [| [[[cc order] line] it] rows IH]; intros g;
    cbn [build_mag_rows].
  - constructor.
  - destruct (random_lt_008 g) as [flip g1].
    set (base := dict_get product_of_item it).
    set (alts := filter (fun p => negb (String.eqb p base))
                        (set_iter (map snd product_of_item))).
    assert (Halt : flip = true -> In (fst (choice rng randbelow alts g1)) alts).
    { intros _. apply choice_In.
      assert (Hex : exists v, In v alts).
      { destruct (String.eqb "010 - Venetian Blinds" base) eqn:E.
        - exists "015 - Wood Blinds". apply filter_In. split.
          + apply set_iter_In. simpl. tauto.
          + apply String.eqb_eq in E. rewrite <- E. reflexivity.
        - exists "010 - Venetian Blinds". apply filter_In. split.
          + apply set_iter_In. simpl. tauto.
          + now rewrite E. }
      destruct Hex as (v & Hv). intros C. rewrite C in Hv. contradiction. }
    destruct (if flip then choice rng randbelow alts g1 else (base, g1))
      as [prod g2] eqn:Ep.
    specialize (IH g2).
    destruct (build_mag_rows rng randbelow random_lt_008 set_iter rows g2) as [rest g3].
    cbn [fst] in *. constructor; [| exact IH].
    cbn [tuple_last]. fold base.
    destruct flip; cbv iota in Ep.
    + right. specialize (Halt eq_refl). rewrite Ep in Halt. cbn [fst] in Halt.
      apply filter_In in Halt. destruct Halt as [Hin Hne]. split.
      * apply (proj1 (set_iter_In _ _)) in Hin. exact Hin.
      * apply negb_true_iff, String.eqb_neq in Hne. exact Hne.
    + left. now injection Ep as <- _.
Qed.

End InRange.

(** X17: the loop that fills [rows] numbers the orders ["25-000000"],
    ["25-000001"], ... in the order of the range, so no two order lines
    share an order number; and with a generator that draws below its
    bound, every order line has a company of [companies], an item of
    [items] and a line number from 1 to 4. *)
Theorem build_rows_invariants (range : list nat) (g : rng) :
  (forall n g, 0 < n -> fst (randbelow n g) < n) ->
  map tuple_order (fst (build range g)) = map (fun i => "25-" ++ fmt_06d i) range
  /\ (NoDup range -> NoDup (map tuple_order (fst (build range g))))
  /\ Forall (fun r => In (tuple_company r) companies /\ In (tuple_last r) items
                      /\ (1 <= tuple_line r <= 4)%Z)
            (fst (build range g)).
Proof.
  intros Hrb. split; [apply build_rows_orders |].
  split; [apply build_rows_orders_NoDup | now apply build_rows_fields].
Qed.

(** X18: the loop that fills [mag_rows] copies the key of each order
    line, in order, and gives it the base product of its item or, on a
    flip, a product of the table that differs from the base product
    (for a generator that draws below its bound and a [set] that
    iterates over its elements). *)
Theorem build_mag_rows_invariants (rows : list plato_tuple) (g : rng) :
  (forall n g, 0 < n -> fst (randbelow n g) < n) ->
  (forall l x, In x (set_iter l) <-> In x l) ->
  Forall2 (fun r m => tuple_key m = tuple_key r
                      /\ (tuple_last m = dict_get product_of_item (tuple_last r)
                          \/ (In (tuple_last m) products
                              /\ tuple_last m <> dict_get product_of_item (tuple_last r))))
          rows (fst (build_mag rows g)).
Proof.
  intros Hrb Hset.
  pose proof (build_mag_rows_keys rows g) as Hk.
  pose proof (build_mag_rows_products Hrb Hset rows g) as Hp.
  revert Hp. induction Hk as [| r m rows ms (Hc & Ho & Hl) Hk IH]; intros Hp.
  - constructor.
  - inversion Hp as [| ? ? ? ? Hrm Hp']; subst. constructor; auto.
    split; [| exact Hrm]. unfold tuple_key. now rewrite Hc, Ho, Hl.
Qed.

Lemma plato_frame_In (rows : list plato_tuple) (pl : Plato.row) :
  In pl (plato_frame rows) ->
  exists r, In r rows
    /\ pl = Plato.mk (Some (tuple_company r)) (Some (tuple_order r))
                     (Some (tuple_line r)) (Some (tuple_last r)).
Proof.
  unfold plato_frame. rewrite in_map_iff.
  intros ([[[cc o] l] it] & <- & Hr). exists (cc, o, l, it). auto.
Qed.

Lemma mag_frame_In (rows : list mag_tuple) (m : Mag.row) :
  In m (mag_frame rows) ->
  exists t, In t rows
    /\ m = Mag.mk (Some (tuple_company t)) (Some (tuple_order t))
                  (Some (tuple_line t)) (Some (tuple_last t)).
Proof.
  unfold mag_frame. rewrite in_map_iff.
  intros ([[[cc o] l] p] & <- & Hr). exists (cc, o, l, p). auto.
Qed.

Lemma Forall2_In_r {A B} (R : A -> B -> Prop) (l : list A) (l' : list B) (y : B) :
  Forall2 R l l' -> In y l' -> exists x, In x l /\ R x y.
Proof.
  induction 1 as [| a b l l' Hab _ IH]; simpl; [contradiction |].
  intros [<- | Hy].
  - exists a. auto.
  - destruct (IH Hy) as (x & Hx & HR). exists x. auto.
Qed.

(** Where a row of the output comes from. *)
Lemma picked_row_origin (plato : list Plato.row) (mag : list Mag.row) (row : Picked.row) :
  In row (resolve plato mag) ->
  exists pl m, In pl plato /\ In m mag /\ plato_key pl = mag_key m
    /\ Mag.mg_product_name m = Some (Picked.mg_product_name row)
    /\ Plato.company_code pl = Some (Picked.company_code row)
    /\ Plato.sales_item_id pl = Some (Picked.sales_item_id row).
Proof.
  rewrite resolve_eq_picked. intros Hin.
  destruct (picked_first_max _ _ _ Hin) as (n & l1 & l2 & Hc & _).
  assert (Hr : In (Counts.mk (Picked.company_code row) (Picked.sales_item_id row)
                             (Picked.mg_product_name row) n) (counts plato mag)).
  { rewrite Hc. apply in_or_app. right. now left. }
  apply counts_In in Hr. unfold counts_triple in Hr. simpl in Hr.
  destruct Hr as [Hocc _]. now apply occurrences_In.
Qed.

(** X19: with a generator that draws below its bound and a [set] that
    iterates over its elements, every row of the synthetic mapping has a
    company of [companies], an item of [items] and a product of
    [product_of_item]; there are at most 3 * 14 rows. *)
Theorem mock_output_within_tables (seed : Z) (g : rng) :
  (forall n g, 0 < n -> fst (randbelow n g) < n) ->
  (forall l x, In x (set_iter l) <-> In x l) ->
  Forall (fun row => In (Picked.company_code row) companies
                     /\ In (Picked.sales_item_id row) items
                     /\ In (Picked.mg_product_name row) products)
         (fst (mock seed g))
  /\ List.length (fst (mock seed g)) <= 42.
Proof.
  intros Hrb Hset. unfold mock, mock_mapping_dataframe.
  pose proof (build_rows_fields Hrb (seq 0 3000) (seed_state seed)) as Hrows.
  unfold build in Hrows.
  destruct (build_rows rng randbelow (seq 0 3000) (seed_state seed)) as [rows g1].
  pose proof (build_mag_rows_products Hrb Hset rows g1) as Hmag.
  unfold build_mag in Hmag.
  destruct (build_mag_rows rng randbelow random_lt_008 set_iter rows g1) as [mag_rows g2].
  cbn [fst] in *. rewrite Forall_forall in Hrows.
  assert (Hall : forall row, In row (resolve (plato_frame rows) (mag_frame mag_rows)) ->
            In (Picked.company_code row) companies
            /\ In (Picked.sales_item_id row) items
            /\ In (Picked.mg_product_name row) products).
  { intros row Hrow.
    destruct (picked_row_origin _ _ _ Hrow) as (pl & m & Hpl & Hm & _ & Hp & Hc & Hi).
    apply plato_frame_In in Hpl. destruct Hpl as (r & Hr & ->).
    apply mag_frame_In in Hm. destruct Hm as (t & Ht & ->).
    simpl in Hp, Hc, Hi. injection Hp as Hp. injection Hc as Hc. injection Hi as Hi.
    destruct (Hrows r Hr) as (Hcc & Hit & _).
    rewrite <- Hc, <- Hi, <- Hp. split; [exact Hcc |]. split; [exact Hit |].
    destruct (Forall2_In_r _ _ _ _ Hmag Ht) as (r' & Hr' & [E | [Hin _]]); [| exact Hin].
    rewrite E. apply dict_get_In, items_are_keys. now apply (Hrows r' Hr'). }
  split; [now apply Forall_forall |].
  change 42 with (List.length (list_prod companies items)).
  rewrite <- (length_map picked_pair).
  apply NoDup_incl_length.
  - rewrite resolve_eq_picked. apply picked_pairs_NoDup.
  - intros k Hk. apply in_map_iff in Hk. destruct Hk as (row & <- & Hrow).
    destruct (Hall row Hrow) as (Hcc & Hit & _). now apply in_prod.
Qed.

Lemma unique_match (Mg : list Mag.row) (m : Mag.row) (p : Plato.row) :
  NoDup (map mag_key Mg) -> In m Mg -> plato_key p = mag_key m ->
  notna (Mag.mg_product_name m) = true ->
  flat_map (fun m' =>
      if join_key_eqb (plato_key p) (mag_key m') && notna (Mag.mg_product_name m')
      then [joined_row p (Mag.mg_product_name m')] else []) Mg
  = [joined_row p (Mag.mg_product_name m)].
Proof.
  intros Hnd Hin Hk Hna. induction Mg as [| m' Mg IH]; [contradiction |].
  cbn [map] in Hnd. inversion Hnd as [| ? ? Hnotin Hnd']; subst.
  cbn [flat_map]. destruct Hin as [-> | Hin].
  - rewrite (proj2 (join_key_eqb_eq _ _) Hk), Hna. cbn [andb app]. f_equal.
    apply flat_map_nil. intros m'' Hm''.
    destruct (join_key_eqb (plato_key p) (mag_key m'')) eqn:E; auto.
    apply join_key_eqb_eq in E. exfalso. apply Hnotin.
    rewrite <- Hk, E. now apply in_map.
  - destruct (join_key_eqb (plato_key p) (mag_key m')) eqn:E.
    + apply join_key_eqb_eq in E. exfalso. apply Hnotin.
      rewrite <- E, Hk. now apply in_map.
    + cbn [andb app]. now apply IH.
Qed.

(** X21: in the synthetic data every order line joins exactly one
    labelled record, its own: the frame [joined] has one row per order
    line, in order, with the line's item and that record's product. *)
Theorem mock_join_is_one_to_one (range : list nat) (g g1 : rng) :
  NoDup range ->
  let rows := fst (build range g) in
  let mag_rows := fst (build_mag rows g1) in
  joined (plato_frame rows) (mag_frame mag_rows)
  = map (fun rm => Joined.mk (Some (tuple_company (fst rm))) (Some (tuple_order (fst rm)))
                             (Some (tuple_line (fst rm))) (Some (tuple_last (fst rm)))
                             (Some (tuple_last (snd rm))))
        (combine rows mag_rows)
  /\ List.length (joined (plato_frame rows) (mag_frame mag_rows)) = List.length range.
Proof.
  intros Hrange rows mag_rows.
  pose proof (build_rows_orders_NoDup range g Hrange) as Hnd. fold rows in Hnd.
  pose proof (build_mag_rows_keys rows g1) as Hkeys. fold mag_rows in Hkeys.
  assert (Hlr : List.length rows = List.length range).
  { transitivity (List.length (map tuple_order rows));
      [symmetry; apply length_map |].
    unfold rows. rewrite build_rows_orders. apply length_map. }
  clearbody mag_rows. clearbody rows.
  assert (Hmk : map mag_key (mag_frame mag_rows) = map tuple_key rows).
  { clear Hnd Hlr. unfold mag_frame. rewrite map_map.
    induction Hkeys as [| r t rs ts (Hc & Ho & Hl) _ IH]; cbn [map]; auto.
    rewrite IH. f_equal. destruct t as [[[cc o] l] pr]. unfold mag_key, tuple_key.
    simpl in *. now rewrite Hc, Ho, Hl. }
  assert (HndM : NoDup (map mag_key (mag_frame mag_rows))).
  { rewrite Hmk.
    apply (NoDup_map_compose tuple_key (fun k : join_key => snd (fst k))).
    unfold tuple_key. simpl. rewrite <- (map_map tuple_order Some).
    apply NoDup_map_injective; auto. congruence. }
  assert (Hjoin : forall rs ts,
            Forall2 (fun r m => tuple_company m = tuple_company r
                                /\ tuple_order m = tuple_order r
                                /\ tuple_line m = tuple_line r) rs ts ->
            incl ts mag_rows ->
            flat_map (fun p => flat_map (fun m =>
                if join_key_eqb (plato_key p) (mag_key m) && notna (Mag.mg_product_name m)
                then [joined_row p (Mag.mg_product_name m)] else [])
              (mag_frame mag_rows)) (plato_frame rs)
            = map (fun rm => Joined.mk (Some (tuple_company (fst rm)))
                               (Some (tuple_order (fst rm))) (Some (tuple_line (fst rm)))
                               (Some (tuple_last (fst rm))) (Some (tuple_last (snd rm))))
                  (combine rs ts)).
  { induction 1 as [| r t rs ts (Hc & Ho & Hl) _ IH]; intros Hincl; auto.
    destruct r as [[[cc o] l] it], t as [[[cc' o'] l'] pr]. simpl in Hc, Ho, Hl. subst.
    change (plato_frame ((cc, o, l, it) :: rs))
      with (Plato.mk (Some cc) (Some o) (Some l) (Some it) :: plato_frame rs).
    cbn [flat_map combine map].
    rewrite IH by (intros x Hx; apply Hincl; now right). clear IH.
    rewrite (unique_match (mag_frame mag_rows) (Mag.mk (Some cc) (Some o) (Some l) (Some pr)));
      auto.
    unfold mag_frame. apply in_map_iff. exists (cc, o, l, pr). split; auto.
    apply Hincl. now left. }
  assert (E : joined (plato_frame rows) (mag_frame mag_rows)
              = map (fun rm => Joined.mk (Some (tuple_company (fst rm)))
                                 (Some (tuple_order (fst rm))) (Some (tuple_line (fst rm)))
                                 (Some (tuple_last (fst rm))) (Some (tuple_last (snd rm))))
                    (combine rows mag_rows)).
  { rewrite joined_rows. apply Hjoin; [exact Hkeys | apply incl_refl]. }
  split; [exact E |].
  rewrite E, length_map, length_combine.
  pose proof (Forall2_length Hkeys) as Hlen.
  unfold plato_tuple, mag_tuple in *. lia.
Qed.

Lemma joined_own_records (rows : list plato_tuple) (mag_rows : list mag_tuple) :
  NoDup (map tuple_order rows) ->
  Forall2 (fun r m => tuple_company m = tuple_company r
                      /\ tuple_order m = tuple_order r
                      /\ tuple_line m = tuple_line r) rows mag_rows ->
  joined (plato_frame rows) (mag_frame mag_rows)
  = map (fun rm => Joined.mk (Some (tuple_company (fst rm))) (Some (tuple_order (fst rm)))
                             (Some (tuple_line (fst rm))) (Some (tuple_last (fst rm)))
                             (Some (tuple_last (snd rm))))
        (combine rows mag_rows).
Proof.
  intros Hnd Hkeys.
  assert (Hmk : map mag_key (mag_frame mag_rows) = map tuple_key rows).
  { clear Hnd. unfold mag_frame. rewrite map_map.
    induction Hkeys as [| r t rs ts (Hc & Ho & Hl) _ IH]; cbn [map]; auto.
    rewrite IH. f_equal. destruct t as [[[cc o] l] pr]. unfold mag_key, tuple_key.
    simpl in *. now rewrite Hc, Ho, Hl. }
  assert (HndM : NoDup (map mag_key (mag_frame mag_rows))).
  { rewrite Hmk.
    apply (NoDup_map_compose tuple_key (fun k : join_key => snd (fst k))).
    unfold tuple_key. simpl. rewrite <- (map_map tuple_order Some).
    apply NoDup_map_injective; auto. congruence. }
  assert (Hjoin : forall rs ts,
            Forall2 (fun r m => tuple_company m = tuple_company r
                                /\ tuple_order m = tuple_order r
                                /\ tuple_line m = tuple_line r) rs ts ->
            incl ts mag_rows ->
            flat_map (fun p => flat_map (fun m =>
                if join_key_eqb (plato_key p) (mag_key m) && notna (Mag.mg_product_name m)
                then [joined_row p (Mag.mg_product_name m)] else [])
              (mag_frame mag_rows)) (plato_frame rs)
            = map (fun rm => Joined.mk (Some (tuple_company (fst rm)))
                               (Some (tuple_order (fst rm))) (Some (tuple_line (fst rm)))
                               (Some (tuple_last (fst rm))) (Some (tuple_last (snd rm))))
                  (combine rs ts)).
  { induction 1 as [| r t rs ts (Hc & Ho & Hl) _ IH]; intros Hincl; auto.
    destruct r as [[[cc o] l] it], t as [[[cc' o'] l'] pr]. simpl in Hc, Ho, Hl. subst.
    change (plato_frame ((cc, o, l, it) :: rs))
      with (Plato.mk (Some cc) (Some o) (Some l) (Some it) :: plato_frame rs).
    cbn [flat_map combine map].
    rewrite IH by (intros x Hx; apply Hincl; now right). clear IH.
    rewrite (unique_match (mag_frame mag_rows) (Mag.mk (Some cc) (Some o) (Some l) (Some pr)));
      auto.
    unfold mag_frame. apply in_map_iff. exists (cc, o, l, pr). split; auto.
    apply Hincl. now left. }
  rewrite joined_rows. apply Hjoin; [exact Hkeys | apply incl_refl].
Qed.

Lemma occurrences_own_records
    (l : list ((string * string * Z * string) * (string * string * Z * string))) :
  occurrences
    (map (fun rm => Joined.mk (Some (tuple_company (fst rm))) (Some (tuple_order (fst rm)))
                              (Some (tuple_line (fst rm))) (Some (tuple_last (fst rm)))
                              (Some (tuple_last (snd rm)))) l)
  = map (fun rm => (tuple_company (fst rm), tuple_last (fst rm), tuple_last (snd rm))) l.
Proof.
  induction l as [| rm l IH]; auto.
  cbn [map]. rewrite <- IH. reflexivity.
Qed.

Lemma count_occ_map_filter {A} (f : A -> triple_key) (l : list A) (k : triple_key) :
  count_occ triple_key_dec (map f l) k
  = List.length (filter (fun a => if triple_key_dec (f a) k then true else false) l).
Proof.
  induction l as [| a l IH]; auto.
  cbn [map count_occ filter]. destruct (triple_key_dec (f a) k); cbn [List.length]; auto.
Qed.

Lemma filter_length_le_inner {A} (p q r : A -> bool) (l : list A) :
  (forall a, p a = true -> r a = true /\ q a = true) ->
  List.length (filter p l) <= List.length (filter q (filter r l)).
Proof.
  intros H. induction l as [| a l IH]; auto.
  cbn [filter]. destruct (p a) eqn:Pa.
  - destruct (H a Pa) as [-> Qa]. cbn [filter]. rewrite Qa. cbn [List.length]. lia.
  - destruct (r a); cbn [filter]; [destruct (q a); cbn [List.length] |]; lia.
Qed.

Lemma filter_length_inner_le {A} (p q r : A -> bool) (l : list A) :
  (forall a, r a = true -> q a = true -> p a = true) ->
  List.length (filter q (filter r l)) <= List.length (filter p l).
Proof.
  intros H. induction l as [| a l IH]; auto.
  cbn [filter]. destruct (r a) eqn:Ra; cbn [filter].
  - destruct (q a) eqn:Qa.
    + rewrite (H a Ra Qa). cbn [List.length]. lia.
    + destruct (p a); cbn [List.length]; lia.
  - destruct (p a); cbn [List.length]; lia.
Qed.

Lemma filter_length_split {A} (q : A -> bool) (l : list A) :
  List.length l
  = List.length (filter q l) + List.length (filter (fun a => negb (q a)) l).
Proof.
  induction l as [| a l IH]; auto.
  cbn [filter]. destruct (q a); cbn [negb List.length]; lia.
Qed.

(** A product with a strictly larger count than every other product of
    its pair has the pair's row. *)
Lemma strict_majority_picked (plato : list Plato.row) (mag : list Mag.row)
    (c i p : string) :
  (forall p', p' <> p ->
     occurrence_count plato mag c i p' < occurrence_count plato mag c i p) ->
  In (Picked.mk c i p) (picked plato mag).
Proof.
  intros Hmaj.
  assert (Hpos : 0 < occurrence_count plato mag c i p).
  { assert (Hne : String "x" p <> p).
    { intros E. apply (f_equal String.length) in E. simpl in E. lia. }
    specialize (Hmaj _ Hne). lia. }
  assert (Hk : In (c, i) (map picked_pair (picked plato mag))).
  { apply picked_pair_In.
    exists (Counts.mk c i p (occurrence_count plato mag c i p)). split; auto.
    apply counts_In. unfold counts_triple. simpl. split; auto.
    now apply occurrence_count_pos. }
  apply in_map_iff in Hk. destruct Hk as ([c' i' p0] & E & Hrow).
  unfold picked_pair in E. simpl in E. injection E as -> ->.
  destruct (string_dec p0 p) as [-> | Hne]; [exact Hrow |].
  pose proof (picked_count_max plato mag c i p0 p Hrow) as Hle.
  specialize (Hmaj p0 Hne). lia.
Qed.

(** X20: in the synthetic data, a (company, item) pair with fewer flipped
    lines than unflipped ones gets, in the output, the product that
    [product_of_item] gives the item: the dominant product wins over the
    noise. *)
Theorem mock_dominant_product (range : list nat) (g g1 : rng) (c i : string) :
  NoDup range ->
  let rows := fst (build range g) in
  let mag_rows := fst (build_mag rows g1) in
  let lines := pair_lines c i rows mag_rows in
  2 * List.length (filter flipped lines) < List.length lines ->
  In (Picked.mk c i (dict_get product_of_item i))
     (resolve (plato_frame rows) (mag_frame mag_rows)).
Proof.
  intros Hrange rows mag_rows lines Hmaj.
  pose proof (build_rows_orders_NoDup range g Hrange) as Hnd. fold rows in Hnd.
  pose proof (build_mag_rows_keys rows g1) as Hkeys. fold mag_rows in Hkeys.
  pose proof (filter_length_split flipped lines) as Hsplit.
  unfold lines, pair_lines in Hmaj, Hsplit. clear lines.
  clearbody mag_rows. clearbody rows.
  rewrite resolve_eq_picked. apply strict_majority_picked.
  unfold occurrence_count.
  rewrite (joined_own_records rows mag_rows Hnd Hkeys), occurrences_own_records.
  intros p' Hne. rewrite !count_occ_map_filter.
  eapply Nat.le_lt_trans;
    [apply (filter_length_le_inner _ flipped
              (fun rm => String.eqb (tuple_company (fst rm)) c
                         && String.eqb (tuple_last (fst rm)) i)) |].
  - intros rm Hrm.
    destruct (triple_key_dec _ _) as [E |] in Hrm; [| discriminate].
    injection E as Ec Ei Ep. unfold flipped.
    rewrite Ec, Ei, Ep, !String.eqb_refl. split; auto.
    apply negb_true_iff, String.eqb_neq. exact Hne.
  - eapply Nat.lt_le_trans;
      [| apply (filter_length_inner_le _ (fun rm => negb (flipped rm))
                  (fun rm => String.eqb (tuple_company (fst rm)) c
                             && String.eqb (tuple_last (fst rm)) i))].
    + unfold plato_tuple, mag_tuple in *. lia.
    + intros rm Hpair Hflip.
      apply andb_true_iff in Hpair. destruct Hpair as [Ec Ei].
      apply String.eqb_eq in Ec, Ei. unfold flipped in Hflip.
      rewrite negb_involutive in Hflip. apply String.eqb_eq in Hflip.
      destruct (triple_key_dec _ _) as [| C]; auto.
      exfalso. apply C. now rewrite Ec, Hflip, Ei.
Qed.

End MockFacts.

Lemma zero_randbelow_lt (n : nat) (g : unit) : 0 < n -> fst (zero_randbelow n g) < n.
Proof. intros H. exact H. Qed.

Lemma pyset_In (l : list string) (x : string) : In x (pyset l) <-> In x l.
Proof. apply nodup_In. Qed.

Lemma build_rows_invariants_witness :
  map tuple_order (fst (build_rows unit zero_randbelow [0; 1; 2] tt))
  = ["25-000000"; "25-000001"; "25-000002"]
  /\ NoDup (map tuple_order (fst (build_rows unit zero_randbelow [0; 1; 2] tt)))
  /\ Forall (fun r => In (tuple_company r) companies /\ In (tuple_last r) items
                      /\ (1 <= tuple_line r <= 4)%Z)
            (fst (build_rows unit zero_randbelow [0; 1; 2] tt)).
Proof.
  destruct (build_rows_invariants unit zero_randbelow [0; 1; 2] tt zero_randbelow_lt)
    as (Ho & Hnd & Hf).
  split; [exact Ho |]. split; [| exact Hf].
  apply Hnd. repeat constructor; simpl; intuition discriminate.
Defined.

Lemma build_mag_rows_invariants_witness :
  Forall2 (fun r m => tuple_key m = tuple_key r
                      /\ (tuple_last m = dict_get product_of_item (tuple_last r)
                          \/ (In (tuple_last m) products
                              /\ tuple_last m <> dict_get product_of_item (tuple_last r))))
          [("C01", "25-000000", 1%Z, "0010-R01")]
          (fst (build_mag_rows unit zero_randbelow zero_random_lt_008 pyset
                  [("C01", "25-000000", 1%Z, "0010-R01")] tt)).
Proof.
  exact (build_mag_rows_invariants unit zero_randbelow zero_random_lt_008 pyset
           [("C01", "25-000000", 1%Z, "0010-R01")] tt zero_randbelow_lt pyset_In).
Defined.

Lemma mock_output_within_tables_witness :
  Forall (fun row => In (Picked.company_code row) companies
                     /\ In (Picked.sales_item_id row) items
                     /\ In (Picked.mg_product_name row) products)
         (fst (mock_mapping_dataframe unit (fun _ => tt) zero_randbelow
                 zero_random_lt_008 pyset 7%Z tt))
  /\ List.length (fst (mock_mapping_dataframe unit (fun _ => tt) zero_randbelow
                         zero_random_lt_008 pyset 7%Z tt)) <= 42.
Proof.
  exact (mock_output_within_tables unit (fun _ => tt) zero_randbelow
           zero_random_lt_008 pyset 7%Z tt zero_randbelow_lt pyset_In).
Defined.

Lemma mock_join_is_one_to_one_witness :
  List.length
    (joined (plato_frame (fst (build_rows unit zero_randbelow (seq 0 3) tt)))
            (mag_frame (fst (build_mag_rows unit zero_randbelow zero_random_lt_008 pyset
                               (fst (build_rows unit zero_randbelow (seq 0 3) tt)) tt))))
  = 3.
Proof.
  apply (mock_join_is_one_to_one unit zero_randbelow zero_random_lt_008 pyset
           (seq 0 3) tt tt).
  apply seq_NoDup.
Defined.

Lemma mock_dominant_product_witness :
  In (Picked.mk "C01" "0010-R01" "010 - Venetian Blinds")
     (resolve
        (plato_frame (fst (build_rows unit zero_randbelow (seq 0 3) tt)))
        (mag_frame (fst (build_mag_rows unit zero_randbelow zero_random_lt_008 pyset
                           (fst (build_rows unit zero_randbelow (seq 0 3) tt)) tt)))).
Proof.
  apply (mock_dominant_product unit zero_randbelow zero_random_lt_008 pyset
           (seq 0 3) tt tt "C01" "0010-R01").
  - apply seq_NoDup.
  - vm_compute. lia.
Defined.
